(** * Raster-to-SVG conversion ([svgt.py]): model and verified properties

    The development embeds [precise_image_to_svg] of [src/svgt.py].  The
    Python code is a straight-line pipeline over OpenCV and svgwrite calls;
    the calls are kept as an interface ([Cv2], [Svgwrite]) and everything the
    script itself does (shape checks, alpha handling, colour formatting, the
    contour loop with its area filter, centroid sampling, clamping and path
    assembly, the final save) is written out as executable definitions.

    Conventions.
    - numpy [uint8] samples are [Z] values in [0, 255];
    - Python [int]s are [Z]; Python/OpenCV [float]s are the rationals they
      denote ([Q]), rounding of [*] and [/] is not modelled;
    - exceptions are values of [exn], carried by the [result] monad;
      [OSError] stands for every exception [open] raises on a path it
      cannot open;
    - strings are their UTF-8 bytes, so the line the script prints is the
      literal of line 86 as the file has it;
    - the file system and standard output form the [World] that
      [precise_image_to_svg] transforms; standard output accepts every
      line.

    The second half embeds the chapter functions of [src/pdfff/pdf.py]
    (module [Pdf]) over the same [World], with the PDF reader left out. *)

From Stdlib Require Import ZArith QArith Lia Ascii String.
From stdpp Require Import base option list strings pretty gmap.

Local Open Scope Z_scope.

(** ** Exceptions and the error monad *)

Inductive exn :=
| FileNotFoundError
| IndexError
| ValueError
| TypeError
| OSError
| cv2_error.

Inductive result (A : Type) :=
| Ok (a : A)
| Raise (e : exn).
Arguments Ok {A} a.
Arguments Raise {A} e.

#[global] Instance result_ret : MRet result := @Ok.
#[global] Instance result_bind : MBind result := fun A B f m =>
  match m with
  | Ok a => f a
  | Raise e => Raise e
  end.

(** ** numpy arrays *)

(** A decoded image is either a two-dimensional array (one sample per pixel)
    or a three-dimensional one ([c] samples per pixel).  The dimensions are
    part of the value, as [ndarray.shape] is. *)
Inductive ndarray :=
| Array2 (h w : nat) (a : list (list Z))
| Array3 (h w c : nat) (a : list (list (list Z))).

Definition shape (img : ndarray) : list nat :=
  match img with
  | Array2 h w _ => [h; w]
  | Array3 h w c _ => [h; w; c]
  end.

(** [t[i]] on a tuple or list with a non-negative literal index. *)
Definition tuple_get {A} (t : list A) (i : nat) : result A :=
  match t !! i with
  | Some x => Ok x
  | None => Raise IndexError
  end.

(** The array really has the shape it announces, with [uint8] samples. *)
Definition is_uint8 (v : Z) : Prop := 0 <= v <= 255.

Definition wf_ndarray (img : ndarray) : Prop :=
  match img with
  | Array2 h w a =>
      length a = h /\
      Forall (fun row => length row = w /\ Forall is_uint8 row) a
  | Array3 h w c a =>
      length a = h /\
      Forall (fun row => length row = w /\
                Forall (fun px => length px = c /\ Forall is_uint8 px) row) a
  end.

(** Element [(y, x)] of a nested list, when both indices are in range. *)
Definition at2 {A} (a : list (list A)) (y x : nat) : option A :=
  a !! y ≫= (.!! x).

(** numpy integer indexing along one axis of extent [n]: negative indices
    count from the end, anything outside [-n, n) raises. *)
Definition np_index (n : nat) (i : Z) : result nat :=
  if (0 <=? i) && (i <? Z.of_nat n) then Ok (Z.to_nat i)
  else if (- Z.of_nat n <=? i) && (i <? 0) then Ok (Z.to_nat (i + Z.of_nat n))
  else Raise IndexError.

(** [img[y, x]] followed by iteration/unpacking: the sample vector of one
    pixel.  A two-dimensional array yields a scalar, which cannot be
    iterated. *)
Definition getitem2 (img : ndarray) (y x : Z) : result (list Z) :=
  match img with
  | Array2 h w _ =>
      _ ← np_index h y; _ ← np_index w x; Raise TypeError
  | Array3 h w c a =>
      j ← np_index h y;
      i ← np_index w x;
      match at2 a j i with
      | Some px => Ok px
      | None => Raise IndexError
      end
  end.

(** An elementwise operation over the first two axes. *)
Abbreviation map2 f a := (fmap (M := list) (fmap (M := list) f) a).

(** [img[:, :, k]] and [img[:, :, :k]]. *)
Definition channel (k : nat) (a : list (list (list Z))) : list (list Z) :=
  map2 (fun px : list Z => default 0 (px !! k)) a.

Definition channels_upto (k : nat) (a : list (list (list Z)))
  : list (list (list Z)) :=
  map2 (take k) a.

(** [np.ones_like(a) * 255] on a [uint8] array. *)
Definition uint8 (v : Z) : Z := v mod 256.

Definition ones_like_times (k : Z) (a : list (list (list Z)))
  : list (list (list Z)) :=
  map2 (fmap (M := list) (fun _ : Z => uint8 (1 * k))) a.

(** [np.where(cond[..., None], a, b)]: the condition of a pixel is broadcast
    over its samples. *)
Definition np_where (cond : list (list bool)) (a b : list (list (list Z)))
  : list (list (list Z)) :=
  zip_with (fun crow ab =>
      zip_with (fun (c : bool) (pq : list Z * list Z) =>
          zip_with (fun p q : Z => if c then p else q) pq.1 pq.2)
        crow (zip ab.1 ab.2))
    cond (zip a b).

(** ** Image loader: the alpha branch (lines 24-30) *)

Definition handle_alpha (img : ndarray) : result ndarray :=
  c ← tuple_get (shape img) 2;
  if (c =? 4)%nat then
    match img with
    | Array3 h w _ a =>
        let alpha := channel 3 a in
        let white_bg := ones_like_times 255 (channels_upto 3 a) in
        Ok (Array3 h w 3
              (np_where (map2 (fun v => v =? 0) alpha)
                 white_bg (channels_upto 3 a)))
    | Array2 _ _ _ => Raise IndexError
    end
  else Ok img.

(** What the alpha branch does to one pixel: a transparent pixel becomes
    white, any other keeps its first three samples. *)
Definition composite (px : list Z) : list Z :=
  zip_with (fun p q : Z => if default 0 (px !! 3%nat) =? 0 then p else q)
    ((fun _ : Z => 255) <$> take 3 px) (take 3 px).

(** An opaque all-white image of the given size. *)
Definition white_image (h w : nat) : ndarray :=
  Array3 h w 3 (replicate h (replicate w [255; 255; 255])).

(** ** Python numbers and string formatting *)

(** [a < b] on floats. *)
Definition Qltb (a b : Q) : bool :=
  (Qnum a * Z.pos (Qden b) <? Qnum b * Z.pos (Qden a)).

(** [int(q)]: truncation toward zero. *)
Definition int_of_float (q : Q) : Z := Z.quot (Qnum q) (Z.pos (Qden q)).

Definition hex_digit (d : N) : ascii :=
  Ascii.ascii_of_N (if (d <? 10)%N then 48 + d else 87 + d).

Fixpoint hex_go (fuel : nat) (n : N) (acc : string) : string :=
  match fuel with
  | O => acc
  | S k =>
      let acc' := String (hex_digit (n mod 16)) acc in
      if (n / 16 =? 0)%N then acc' else hex_go k (n / 16) acc'
  end.

Definition hex (n : N) : string :=
  hex_go (S (N.to_nat (N.log2 n))) n EmptyString.

(** ['%02x' % v] and [f"{v:02x}"]: lower-case hexadecimal, zero-padded to
    two characters. *)
Definition format_02x (v : Z) : string :=
  let body := hex (Z.to_N (Z.abs v)) in
  if v <? 0 then "-" +:+ body
  else if (String.length body <? 2)%nat then "0" +:+ body
  else body.

(** [str(v)] of an integer, as used inside f-strings. *)
Definition str (v : Z) : string := pretty v.

(** [sep.join(parts)]. *)
Definition join (sep : string) (parts : list string) : string :=
  String.concat sep parts.

(** ** svgwrite drawings *)

Inductive Element :=
| rect (insert size : Z * Z) (fill : string)
| path (d fill stroke : string).

Record Drawing := {
  filename : string;
  size : Z * Z;
  viewBox : string;
  elements : list Element
}.

(** [dwg.add(e)] appends a child. *)
Definition add (dwg : Drawing) (e : Element) : Drawing :=
  {| filename := filename dwg; size := size dwg; viewBox := viewBox dwg;
     elements := elements dwg ++ [e] |}.

Class Svgwrite := {
  (** the XML text svgwrite produces for a drawing *)
  tostring : Drawing -> string
}.

(** ** The outside world *)

Record World := {
  files : gmap string string;   (* path |-> content *)
  denied : gset string;         (* paths that cannot be opened for writing *)
  stdout : list string
}.

(** [dwg.save()]: open [filename] for writing and write the serialised
    drawing.  When the path cannot be opened, [open] raises one of the
    subclasses of [OSError] (which one depends on the reason:
    a missing directory, a directory in the way, no permission); the model
    does not tell them apart and raises [OSError] for all of them. *)
Definition save `{Svgwrite} (dwg : Drawing) (σ : World) : result World :=
  if decide (filename dwg ∈ denied σ) then Raise OSError
  else Ok {| files := <[filename dwg := tostring dwg]> (files σ);
             denied := denied σ; stdout := stdout σ |}.

(** [print(line)].  Standard output is taken to accept every line: a
    stream whose encoding cannot represent the text, on which [print]
    would raise, is outside the model. *)
Definition print (line : string) (σ : World) : World :=
  {| files := files σ; denied := denied σ; stdout := stdout σ ++ [line] |}.

(** ** The OpenCV interface *)

Abbreviation Contour := (list (Z * Z)).

Inductive ColorConversion := COLOR_BGR2GRAY | COLOR_BGR2RGB.
Inductive AdaptiveMethod := ADAPTIVE_THRESH_MEAN_C | ADAPTIVE_THRESH_GAUSSIAN_C.
Inductive ThresholdType := THRESH_BINARY | THRESH_BINARY_INV.
Inductive MorphShape := MORPH_RECT | MORPH_CROSS | MORPH_ELLIPSE.
Inductive MorphOp := MORPH_OPEN | MORPH_CLOSE.
Inductive RetrievalMode := RETR_EXTERNAL | RETR_LIST.
Inductive ApproxMode := CHAIN_APPROX_NONE | CHAIN_APPROX_SIMPLE.

(** The entries of [cv2.moments] the script reads. *)
Record Moments := { m00 : Q; m10 : Q; m01 : Q }.

Class Cv2 := {
  (** [cv2.imread(path, IMREAD_UNCHANGED)] on the bytes of a file; [None]
      when they are not a decodable image *)
  imdecode : string -> option ndarray;
  cvtColor : ndarray -> ColorConversion -> result (list (list Z));
  GaussianBlur : list (list Z) -> Z * Z -> Q -> result (list (list Z));
  (** the weighted mean of the [blockSize]x[blockSize] neighbourhood of
      pixel [(y, x)], as the filter inside [adaptiveThreshold] computes it in
      floating point, before it is stored as a [uint8] sample *)
  neighbourhood_mean : AdaptiveMethod -> Z -> list (list Z) -> nat -> nat -> Q;
  getStructuringElement : MorphShape -> Z * Z -> list (list Z);
  morphologyEx :
    list (list Z) -> MorphOp -> list (list Z) -> nat -> result (list (list Z));
  findContours :
    list (list Z) -> RetrievalMode -> ApproxMode -> result (list Contour);
  contourArea : Contour -> Q;
  arcLength : Contour -> bool -> Q;
  (** the polygon [cv2.approxPolyDP] returns for an [epsilon] it accepts;
      the call itself is [cv2_approxPolyDP] below *)
  approxPolyDP : Contour -> Q -> bool -> Contour;
  moments : Contour -> Moments
}.

(** [cvRound]: the nearest integer, a tie going to the even one. *)
Definition cvRound (q : Q) : Z :=
  let d := Z.pos (Qden q) in
  let f := Qnum q / d in
  let r := Qnum q mod d in
  if 2 * r <? d then f
  else if d <? 2 * r then f + 1
  else if Z.even f then f else f + 1.

(** [saturate_cast<uchar>] of a float: rounded, then cut to [0, 255].  This
    is how the float mean becomes the [uint8] sample the pixel is compared
    with ([meanfloat.convertTo(mean, src.type())]). *)
Definition saturate_uint8 (q : Q) : Z := Z.max 0 (Z.min 255 (cvRound q)).

(** [cv2.threshold] semantics of one sample against its threshold [T]:
    [THRESH_BINARY] gives [maxValue] when [src > T] and 0 otherwise,
    [THRESH_BINARY_INV] gives 0 when [src > T] and [maxValue] otherwise. *)
Definition threshold_sample (ttype : ThresholdType) (maxValue T src : Z) : Z :=
  match ttype with
  | THRESH_BINARY => if T <? src then maxValue else 0
  | THRESH_BINARY_INV => if T <? src then 0 else maxValue
  end.

(** [cv2.adaptiveThreshold(src, maxValue, method, type, blockSize, C)]: the
    threshold of a pixel is its neighbourhood mean, stored as a [uint8]
    sample, minus [C]; [blockSize] must be odd and greater than 1. *)
Definition adaptiveThreshold `{Cv2} (src : list (list Z)) (maxValue : Z)
    (method : AdaptiveMethod) (ttype : ThresholdType) (blockSize C : Z)
  : result (list (list Z)) :=
  if (blockSize mod 2 =? 1) && (1 <? blockSize) then
    Ok (imap (fun y row =>
          imap (fun x v =>
              threshold_sample ttype maxValue
                (saturate_uint8 (neighbourhood_mean method blockSize src y x)
                 - C) v) row) src)
  else Raise cv2_error.

(** The double [1e30], exactly. *)
Definition epsilon_limit : Q := inject_Z 1000000000000000019884624838656.

(** [cv2.approxPolyDP] refuses an [epsilon] that is negative or not below
    [1e30] ("Epsilon not valid"). *)
Definition valid_epsilon (epsilon : Q) : bool :=
  negb (Qltb epsilon 0) && Qltb epsilon epsilon_limit.

(** [cv2.approxPolyDP(curve, epsilon, closed)]. *)
Definition cv2_approxPolyDP `{Cv2} (curve : Contour) (epsilon : Q)
    (closed : bool) : result Contour :=
  if valid_epsilon epsilon then Ok (approxPolyDP curve epsilon closed)
  else Raise cv2_error.

(** ** The conversion (lines 6-86) *)

Section Pipeline.
Context `{Cv2} `{Svgwrite}.

(** Lines 38-41: the threshold call, with the arguments the script
    passes. *)
Definition binarize (gray : list (list Z)) : result (list (list Z)) :=
  adaptiveThreshold gray 255 ADAPTIVE_THRESH_GAUSSIAN_C THRESH_BINARY_INV
    15 8.

(** Lines 34-49: grayscale, blur, adaptive threshold, close, open,
    external contours. *)
Definition preprocess (img : ndarray) (blur_strength : Q)
  : result (list Contour) :=
  gray ← cvtColor img COLOR_BGR2GRAY;
  gray ← GaussianBlur gray (0, 0) blur_strength;
  thr ← binarize gray;
  let kernel := getStructuringElement MORPH_ELLIPSE (3, 3) in
  clean ← morphologyEx thr MORPH_CLOSE kernel 2;
  clean ← morphologyEx clean MORPH_OPEN kernel 1;
  findContours clean RETR_EXTERNAL CHAIN_APPROX_NONE.

(** Lines 53-54. *)
Definition background_hex (img : ndarray) : result string :=
  px ← getitem2 img 0 0;
  let bg_rgb := px in
  r ← tuple_get bg_rgb 2;
  g ← tuple_get bg_rgb 1;
  b ← tuple_get bg_rgb 0;
  Ok ("#" +:+ format_02x r +:+ format_02x g +:+ format_02x b).

(** Lines 67-71: the point whose colour fills the region. *)
Definition sample_point (contour smooth_contour : Contour) : result (Z * Z) :=
  let M := moments contour in
  if negb (Qeq_bool (m00 M) 0) then
    Ok (int_of_float (m10 M / m00 M), int_of_float (m01 M / m00 M))
  else
    match smooth_contour with
    | pt :: _ => Ok pt
    | [] => Raise IndexError
    end.

(** Line 72: the clamped read. *)
Definition sample_pixel (img : ndarray) (h w : nat) (cx cy : Z)
  : result (list Z) :=
  getitem2 img (Z.min (Z.max cy 0) (Z.of_nat h - 1))
               (Z.min (Z.max cx 0) (Z.of_nat w - 1)).

(** Lines 76-81. *)
Definition path_data (smooth_contour : Contour) : list string :=
  imap (fun i pt =>
      let '(x, y) := pt in
      let cmd := if (i =? 0)%nat then "M" else "L" in
      cmd +:+ " " +:+ str x +:+ "," +:+ str y) smooth_contour
  ++ ["Z"].

(** Lines 61-83: the body of the loop for a contour that passed the
    filter. *)
Definition region (img : ndarray) (h w : nat) (detail : Q)
    (contour : Contour) : result Element :=
  let peri := arcLength contour true in
  let epsilon := (detail * peri)%Q in
  smooth_contour ← cv2_approxPolyDP contour epsilon true;
  '(cx, cy) ← sample_point contour smooth_contour;
  px ← sample_pixel img h w cx cy;
  match px with
  | [b; g; r] =>
      let fill_color :=
        "#" +:+ format_02x r +:+ format_02x g +:+ format_02x b in
      Ok (path (join " " (path_data smooth_contour)) fill_color "none")
  | _ => Raise ValueError
  end.

(** Lines 57-83: the loop, with its [continue]. *)
Fixpoint trace_contours (img : ndarray) (h w : nat) (detail : Q)
    (min_area : Z) (contours : list Contour) (dwg : Drawing)
  : result Drawing :=
  match contours with
  | [] => Ok dwg
  | contour :: rest =>
      if Qltb (contourArea contour) (inject_Z min_area) then
        trace_contours img h w detail min_area rest dwg
      else
        p ← region img h w detail contour;
        trace_contours img h w detail min_area rest (add dwg p)
  end.

(** Lines 24-83: everything between decoding and saving. *)
Definition build_drawing (img : ndarray) (output_path : string)
    (blur_strength detail : Q) (min_area : Z) : result Drawing :=
  match take 2 (shape img) with
  | [h; w] =>
      img ← handle_alpha img;
      contours ← preprocess img blur_strength;
      let dwg :=
        {| filename := output_path;
           size := (Z.of_nat w, Z.of_nat h);
           viewBox := "0 0 " +:+ str (Z.of_nat w) +:+ " " +:+ str (Z.of_nat h);
           elements := [] |} in
      bg_hex ← background_hex img;
      let dwg := add dwg (rect (0, 0) (Z.of_nat w, Z.of_nat h) bg_hex) in
      trace_contours img h w detail min_area contours dwg
  | _ => Raise ValueError
  end.

Definition imread (σ : World) (input_path : string) : option ndarray :=
  files σ !! input_path ≫= imdecode.

Definition precise_image_to_svg (input_path output_path : string)
    (blur_strength detail : Q) (min_area : Z) (σ : World)
  : result unit * World :=
  match imread σ input_path with
  | None => (Raise FileNotFoundError, σ)
  | Some img =>
      match build_drawing img output_path blur_strength detail min_area with
      | Raise e => (Raise e, σ)
      | Ok dwg =>
          match save dwg σ with
          | Raise e => (Raise e, σ)
          | Ok σ' =>
              (Ok tt, print ("âœ… Perfect SVG saved to " +:+ output_path) σ')
          end
      end
  end.

End Pipeline.

(** The defaults of the signature (lines 6-7) and the call the script makes
    when run as a program (lines 89-90). *)
Definition default_output_path : string := "perfect_output.svg".
Definition default_blur_strength : Q := 1.
Definition default_detail : Q := 15 # 10000.
Definition default_min_area : Z := 250.

Definition main `{Cv2} `{Svgwrite} (σ : World) : result unit * World :=
  precise_image_to_svg "input.jpg" "perfect_output.svg"
    default_blur_strength default_detail default_min_area σ.

(** ** Polygon simplification as the specification describes it *)

Module SpecDP.

Abbreviation Point := (Z * Z)%type.

Definition cross (a b p : Point) : Z :=
  (b.1 - a.1) * (p.2 - a.2) - (b.2 - a.2) * (p.1 - a.1).

Definition dist2 (a p : Point) : Z :=
  (p.1 - a.1) * (p.1 - a.1) + (p.2 - a.2) * (p.2 - a.2).

(** Modelled from the spec: the perpendicular deviation of a point from the
    line between two kept points, which [cv2.approxPolyDP] computes inside
    the library.  It is kept squared: the squared perpendicular distance of
    [p] from the chord [a]-[b] and, when the chord degenerates to a point,
    the squared distance to that point. *)
Definition deviation2 (a b p : Point) : Q :=
  if decide (a = b) then inject_Z (dist2 a p)
  else Qmake (cross a b p * cross a b p) (Z.to_pos (dist2 a b)).

(** Modelled from the spec: "finding the point of maximum deviation", a step
    of the library routine.  Position and value of that point; among
    equally deviating points the first one. *)
Fixpoint farthest (a b : Point) (mid : list Point) : option (nat * Point) :=
  match mid with
  | [] => None
  | p :: mid' =>
      match farthest a b mid' with
      | Some (i, q) =>
          if Qltb (deviation2 a b p) (deviation2 a b q) then Some (S i, q)
          else Some (O, p)
      | None => Some (O, p)
      end
  end.

(** Modelled from the spec: the tolerance test of the library routine; the
    deviation of [p] is more than [eps]. *)
Definition exceeds (eps : Q) (a b p : Point) : bool :=
  Qltb eps 0 || Qltb (eps * eps) (deviation2 a b p).

(** Modelled from the spec: the recursion of the library routine.  The
    points kept strictly between [a] and [b]: when the farthest point
    deviates by more than [eps] it is kept and both arcs are simplified in
    turn, otherwise the whole run between [a] and [b] is dropped.  The fuel
    bounds the depth; [length mid] is always enough ([dp_fuel_enough]). *)
Fixpoint dp_fuel (fuel : nat) (eps : Q) (a : Point) (mid : list Point)
    (b : Point) : list Point :=
  match fuel with
  | O => []
  | S k =>
      match farthest a b mid with
      | Some (i, p) =>
          if exceeds eps a b p then
            dp_fuel k eps a (take i mid) p
            ++ p :: dp_fuel k eps p (drop (S i) mid) b
          else []
      | None => []
      end
  end.

(** Modelled from the spec: the same recursion, run with enough fuel. *)
Definition dp (eps : Q) (a : Point) (mid : list Point) (b : Point)
  : list Point :=
  dp_fuel (length mid) eps a mid b.

(** Modelled from the spec: [cv2.approxPolyDP] is library code that the
    repository only calls.  Section 4.4 describes it as recursive
    Douglas-Peucker simplification with tolerance [eps] in which the first
    and the last point of the contour are always kept, the point of
    maximum deviation is found and both arcs are simplified recursively;
    a contour that collapses keeps at least its first point. *)
Definition simplify (eps : Q) (contour : list Point) : list Point :=
  match contour with
  | [] => []
  | [p] => [p]
  | first :: rest =>
      let final := List.last rest first in
      first :: dp eps first (removelast rest) final ++ [final]
  end.

End SpecDP.

(** * Chapter extraction ([pdfff/pdf.py])

    Python strings are modelled by their UTF-8 bytes.  The operations the
    script applies with ASCII arguments ([split] on newlines, the
    substring test, the substitution of everything that is not an ASCII
    letter or digit) give the same result on the bytes as on the code
    points; [str.lower], [str.strip] and the regular-expression search for
    chapter headings depend on Unicode tables and are kept as an
    interface. *)

Module Pdf.

(** A [Dict[str, str]]: the entries in insertion order, one per key. *)
Abbreviation Dict := (list (string * string)).

(** [d[k] = v]: an existing key keeps its place and gets the new value, a
    new key goes to the end. *)
Fixpoint dict_set (d : Dict) (k v : string) : Dict :=
  match d with
  | [] => [(k, v)]
  | (k', v') :: d' =>
      if String.eqb k' k then (k, v) :: d'
      else (k', v') :: dict_set d' k v
  end.

(** [d.get(k)]. *)
Fixpoint dict_get (d : Dict) (k : string) : option string :=
  match d with
  | [] => None
  | (k', v') :: d' => if String.eqb k' k then Some v' else dict_get d' k
  end.

Class PyStr := {
  lower : string -> string;   (* [s.lower()] *)
  strip : string -> string    (* [s.strip()] *)
}.

Class Re := {
  (** [re.findall(pattern, text, flags=re.DOTALL | re.IGNORECASE)] for the
      chapter-heading pattern of line 20 *)
  findall_chapters : string -> list string
}.

Class Os := {
  (** [os.makedirs(path, exist_ok=True)]: it creates directories only,
      which the world does not record, or raises *)
  makedirs : string -> World -> result unit
}.

(** [needle in hay]. *)
Fixpoint contains (hay needle : string) : bool :=
  String.prefix needle hay
  || match hay with
     | EmptyString => false
     | String _ hay' => contains hay' needle
     end.

(** [s.split(sep)] for a non-empty separator: the pieces between the
    occurrences of [sep] found from left to right, without overlap.  After a
    match the remaining [skip] characters of the separator are passed
    over. *)
Fixpoint split_go (sep : string) (skip : nat) (s : string) : list string :=
  match s with
  | EmptyString => [EmptyString]
  | String c s' =>
      match skip with
      | S k => split_go sep k s'
      | O =>
          if String.prefix sep s then
            EmptyString :: split_go sep (String.length sep - 1) s'
          else
            match split_go sep 0 s' with
            | piece :: rest => String c piece :: rest
            | [] => [String c EmptyString]
            end
      end
  end.

Definition split (sep s : string) : list string := split_go sep 0 s.

Definition newline : string := String (Ascii.ascii_of_nat 10) EmptyString.

(** Lines 25-31: the loop over the matches, numbered from [i]. *)
Fixpoint add_chapters `{PyStr} (i : nat) (chapters : list string)
    (chapter_dict : Dict) : Dict :=
  match chapters with
  | [] => chapter_dict
  | chapter :: rest =>
      let lines := split newline (strip chapter) in
      let title :=
        match lines with
        | line :: _ => strip line
        | [] => "Chapter_" +:+ pretty i
        end in
      add_chapters (S i) rest (dict_set chapter_dict title (strip chapter))
  end.

(** Line 35: the dictionary comprehension over the numbered parts. *)
Fixpoint add_chunks (i : nat) (parts : list string) (d : Dict) : Dict :=
  match parts with
  | [] => d
  | part :: rest =>
      add_chunks (S i) rest (dict_set d ("Chunk_" +:+ pretty i) part)
  end.

(** Lines 14-37. *)
Definition split_into_chapters `{PyStr} `{Re} (text : string) : Dict :=
  let chapters := findall_chapters text in
  let chapter_dict := add_chapters 1 chapters [] in
  match chapter_dict with
  | [] => add_chunks 1 (split (newline +:+ newline) text) []
  | _ :: _ => chapter_dict
  end.

Definition is_alnum (c : ascii) : bool :=
  let n := N_of_ascii c in
  ((65 <=? n) && (n <=? 90) || (97 <=? n) && (n <=? 122)
   || (48 <=? n) && (n <=? 57))%N.

(** [re.sub(r'[^A-Za-z0-9]+', repl, s)]: every maximal run of characters
    that are not ASCII letters or digits is replaced by [repl]; [in_run]
    tells that the run under way has been replaced already. *)
Fixpoint sub_non_alnum (repl : string) (in_run : bool) (s : string) : string :=
  match s with
  | EmptyString => EmptyString
  | String c s' =>
      if is_alnum c then String c (sub_non_alnum repl false s')
      else if in_run then sub_non_alnum repl true s'
      else repl +:+ sub_non_alnum repl true s'
  end.

(** Line 46. *)
Definition safe_title (title : string) : string :=
  sub_non_alnum "_" false title.

(** Line 47: the file a chapter goes to. *)
Definition chapter_path (output_dir title : string) : string :=
  output_dir +:+ "/" +:+ safe_title title +:+ ".txt".

(** [with open(path, "w") as f: f.write(content)]. *)
Definition write_file (path content : string) (σ : World) : result World :=
  if decide (path ∈ denied σ) then Raise OSError
  else Ok {| files := <[path := content]> (files σ);
             denied := denied σ; stdout := stdout σ |}.

(** Lines 45-48: the loop; a failing write ends it, the files written so
    far stay. *)
Fixpoint write_chapters (output_dir : string) (items : Dict) (σ : World)
  : result unit * World :=
  match items with
  | [] => (Ok tt, σ)
  | (title, content) :: rest =>
      match write_file (chapter_path output_dir title) content σ with
      | Raise e => (Raise e, σ)
      | Ok σ' => write_chapters output_dir rest σ'
      end
  end.

(** Lines 40-48. *)
Definition save_chapters_to_files `{Os} (chapters : Dict)
    (output_dir : string) (σ : World) : result unit * World :=
  match makedirs output_dir σ with
  | Raise e => (Raise e, σ)
  | Ok _ => write_chapters output_dir chapters σ
  end.

(** Lines 51-59. *)
Fixpoint copy_chapter_text `{PyStr} (chapter_title : string)
    (chapters : Dict) : result string :=
  match chapters with
  | [] => Raise ValueError
  | (title, content) :: rest =>
      if contains (lower title) (lower chapter_title) then Ok content
      else copy_chapter_text chapter_title rest
  end.

(** The vocabulary of the properties below. *)

(** [needle] occurs in [hay]. *)
Definition occurs_in (needle hay : string) : Prop :=
  exists pre post : string, hay = pre +:+ needle +:+ post.

(** [sep.join(parts)]. *)
Definition join_with (sep : string) (parts : list string) : string :=
  String.concat sep parts.

(** Every character is an ASCII letter, a digit or an underscore. *)
Fixpoint is_plain_name (s : string) : bool :=
  match s with
  | EmptyString => true
  | String c s' =>
      (is_alnum c || Ascii.eqb c "_") && is_plain_name s'
  end.

(** [s[n:]]. *)
Fixpoint string_drop (n : nat) (s : string) : string :=
  match n, s with
  | S k, String _ s' => string_drop k s'
  | _, _ => s
  end.

(** The key a match is stored under: its first line, stripped. *)
Definition heading `{PyStr} (chapter : string) : string :=
  strip (hd EmptyString (split newline (strip chapter))).

(** The first character, if any, is an ASCII letter or digit. *)
Definition starts_alnum (s : string) : bool :=
  match s with
  | EmptyString => true
  | String c _ => is_alnum c
  end.

(** ASCII lower-casing and ASCII blank stripping: what [str.lower] and
    [str.strip] do on ASCII text. *)
Definition ascii_lower (c : ascii) : ascii :=
  let n := N_of_ascii c in
  if ((65 <=? n) && (n <=? 90))%N then ascii_of_N (n + 32) else c.

Fixpoint lower_ascii (s : string) : string :=
  match s with
  | EmptyString => EmptyString
  | String c s' => String (ascii_lower c) (lower_ascii s')
  end.

Definition is_blank (c : ascii) : bool :=
  let n := N_of_ascii c in
  ((n =? 32) || (9 <=? n) && (n <=? 13) || (28 <=? n) && (n <=? 31))%N.

Fixpoint lstrip_ascii (s : string) : string :=
  match s with
  | EmptyString => EmptyString
  | String c s' => if is_blank c then lstrip_ascii s' else s
  end.

Fixpoint rstrip_ascii (s : string) : string :=
  match s with
  | EmptyString => EmptyString
  | String c s' =>
      match rstrip_ascii s' with
      | EmptyString => if is_blank c then EmptyString else String c EmptyString
      | t => String c t
      end
  end.

Definition ascii_str : PyStr :=
  {| lower := lower_ascii; strip := fun s => rstrip_ascii (lstrip_ascii s) |}.

(** The heading search of line 20 on ASCII text, on which the functions can
    be run on examples: a match starts at [CHAPTER] (in any case) followed
    by blanks and at least one letter or digit, and runs to the nearest
    place where a line break, optional blanks and the next heading follow,
    or to the end of the text. *)
Fixpoint skip_while (f : ascii -> bool) (s : string) : string :=
  match s with
  | EmptyString => EmptyString
  | String c s' => if f c then skip_while f s' else s
  end.

(** The text after a heading at the start of [s], if there is one. *)
Definition after_heading (s : string) : option string :=
  let rest := string_drop 7 s in
  let word := skip_while is_blank rest in
  if String.prefix "chapter" (lower_ascii s)
     && (String.length word <? String.length rest)%nat
     && negb (String.eqb word EmptyString) && starts_alnum word
  then Some (skip_while is_alnum word)
  else None.

(** The look-ahead of the pattern. *)
Definition heading_follows (s : string) : bool :=
  match s with
  | EmptyString => true
  | String c s' =>
      Ascii.eqb c (Ascii.ascii_of_nat 10)
      && bool_decide (is_Some (after_heading (skip_while is_blank s')))
  end.

(** [st] is [None] while a heading is looked for and otherwise holds the
    match under way, reversed, with the number of characters that still
    belong to its heading. *)
Fixpoint scan (st : option (string * nat)) (s : string) : list string :=
  match s with
  | EmptyString =>
      match st with
      | Some (acc, _) => [String.rev acc]
      | None => []
      end
  | String c s' =>
      match st with
      | Some (acc, S k) => scan (Some (String c acc, k)) s'
      | Some (acc, O) =>
          if heading_follows s then String.rev acc :: scan None s'
          else scan (Some (String c acc, O)) s'
      | None =>
          match after_heading s with
          | Some rest =>
              scan (Some (String c EmptyString,
                          String.length s - String.length rest - 1)%nat) s'
          | None => scan None s'
          end
      end
  end.

Definition ascii_re : Re := {| findall_chapters := scan None |}.

(** Directories can be made anywhere except at a path that cannot be
    written. *)
Definition plain_os : Os :=
  {| makedirs := fun path σ =>
       if decide (path ∈ denied σ) then Raise OSError else Ok tt |}.

End Pdf.

(** ** An executable implementation of the interfaces

    The definitions of this module are not part of [svgt.py]: they are a
    small, exact-arithmetic implementation of [Cv2] and [Svgwrite] on which
    the conversion can be run on concrete images.  Every theorem below holds
    for all implementations of the interfaces. *)

Module Reference.

Definition clamp_index (n : nat) (i : Z) : nat :=
  Z.to_nat (Z.min (Z.max i 0) (Z.of_nat n - 1)).

(** Sample [(y, x)] with border replication. *)
Definition sample (g : list (list Z)) (y x : Z) : Z :=
  default 0 (at2 g (clamp_index (length g) y)
                   (clamp_index (length (default [] (head g))) x)).

Definition sum_list (l : list Z) : Z := foldr Z.add 0 l.

Definition offsets (n : nat) : list Z :=
  (fun k => Z.of_nat k - Z.of_nat (n / 2)) <$> seq 0 n.

(** Rounded mean of the window around [(y, x)] under separable integer
    weights. *)
Definition window_mean (wts : list Z) (g : list (list Z)) (y x : nat) : Z :=
  let total := sum_list wts * sum_list wts in
  let offs := zip wts (offsets (length wts)) in
  let acc :=
    sum_list ((fun wy =>
      sum_list ((fun wx =>
          wy.1 * wx.1 * sample g (Z.of_nat y + wy.2) (Z.of_nat x + wx.2))
        <$> offs)) <$> offs) in
  (2 * acc + total) / (2 * total).

(** The same weighted mean as a fraction, before any rounding. *)
Definition window_average (wts : list Z) (g : list (list Z)) (y x : nat) : Q :=
  let total := sum_list wts * sum_list wts in
  let offs := zip wts (offsets (length wts)) in
  let acc :=
    sum_list ((fun wy =>
      sum_list ((fun wx =>
          wy.1 * wx.1 * sample g (Z.of_nat y + wy.2) (Z.of_nat x + wx.2))
        <$> offs)) <$> offs) in
  Qmake acc (Z.to_pos total).

(** Row [n] of Pascal's triangle: binomial weights approximate a Gaussian
    window. *)
Fixpoint binomial_row (n : nat) : list Z :=
  match n with
  | O => [1]
  | S k => let r := binomial_row k in zip_with Z.add (0 :: r) (r ++ [0])
  end.

(** The Gaussian window of [cv2.getGaussianKernel(15, -1)], that is
    [exp (- k^2 / (2 * 2.6^2))] for [k = -7 .. 7], scaled by 10^6 and
    rounded; [window_average] divides by the sum of the weights. *)
Definition gaussian_window_15 : list Z :=
  [ 26669; 69758; 157377; 306226; 513924; 743893; 928705; 1000000;
    928705; 743893; 513924; 306226; 157377; 69758; 26669 ].

Definition gaussian_window (blockSize : Z) : list Z :=
  if blockSize =? 15 then gaussian_window_15
  else binomial_row (Z.to_nat blockSize - 1).

Definition mean_at (method : AdaptiveMethod) (blockSize : Z)
    (g : list (list Z)) (y x : nat) : Q :=
  match method with
  | ADAPTIVE_THRESH_MEAN_C =>
      window_average (replicate (Z.to_nat blockSize) 1) g y x
  | ADAPTIVE_THRESH_GAUSSIAN_C =>
      window_average (gaussian_window blockSize) g y x
  end.

(** 8-bit luma in OpenCV's fixed-point form. *)
Definition luma (px : list Z) : Z :=
  match px with
  | b :: g :: r :: _ => (b * 1868 + g * 9617 + r * 4899 + 8192) / 16384
  | _ => 0
  end.

Definition to_gray (img : ndarray) (code : ColorConversion)
  : result (list (list Z)) :=
  match img, code with
  | Array3 _ _ c a, COLOR_BGR2GRAY =>
      if (c =? 3)%nat || (c =? 4)%nat
      then Ok (map2 luma a)
      else Raise cv2_error
  | _, _ => Raise cv2_error
  end.

Definition blur (g : list (list Z)) (ksize : Z * Z) (sigma : Q)
  : result (list (list Z)) :=
  if Qltb 0 sigma then
    Ok (imap (fun y row => imap (fun x _ => window_mean [1; 2; 1] g y x) row) g)
  else Raise cv2_error.

Definition structuring_element (shape : MorphShape) (ksize : Z * Z)
  : list (list Z) :=
  match shape with
  | MORPH_RECT => [[1; 1; 1]; [1; 1; 1]; [1; 1; 1]]
  | MORPH_CROSS | MORPH_ELLIPSE => [[0; 1; 0]; [1; 1; 1]; [0; 1; 0]]
  end.

(** The in-range neighbours of [(y, x)] selected by a 3x3 kernel. *)
Definition neighbours (kernel g : list (list Z)) (y x : nat) : list Z :=
  omap (fun d : Z * Z =>
      let yy := Z.of_nat y + d.1 in
      let xx := Z.of_nat x + d.2 in
      if (default 0 (at2 kernel (Z.to_nat (d.1 + 1)) (Z.to_nat (d.2 + 1))) =? 0)
         || (yy <? 0) || (xx <? 0)
      then None else at2 g (Z.to_nat yy) (Z.to_nat xx))
    (d1 ← [-1; 0; 1]; d2 ← [-1; 0; 1]; [(d1, d2)]).

Definition dilate (kernel g : list (list Z)) : list (list Z) :=
  imap (fun y row =>
      imap (fun x v => foldr Z.max v (neighbours kernel g y x)) row) g.

Definition erode (kernel g : list (list Z)) : list (list Z) :=
  imap (fun y row =>
      imap (fun x v => foldr Z.min v (neighbours kernel g y x)) row) g.

Definition morphology (g : list (list Z)) (op : MorphOp)
    (kernel : list (list Z)) (iterations : nat) : result (list (list Z)) :=
  match op with
  | MORPH_CLOSE =>
      Ok (Nat.iter iterations (erode kernel)
            (Nat.iter iterations (dilate kernel) g))
  | MORPH_OPEN =>
      Ok (Nat.iter iterations (dilate kernel)
            (Nat.iter iterations (erode kernel) g))
  end.

(** Contour tracing restricted to what the examples need: the border of the
    bounding rectangle of the foreground, one point per border pixel,
    starting at the top-left corner and running down the left side first.
    Exact when the foreground is a single filled rectangle. *)
Definition span (flags : list bool) : option (Z * Z) :=
  match filter (fun i => default false (flags !! i) = true)
               (seq 0 (length flags)) with
  | [] => None
  | i :: rest => Some (Z.of_nat i, Z.of_nat (List.last rest i))
  end.

Definition range (lo hi : Z) : list Z :=
  (fun k => lo + Z.of_nat k) <$> seq 0 (Z.to_nat (hi - lo + 1)).

Definition trace (g : list (list Z)) (mode : RetrievalMode)
    (approx : ApproxMode) : result (list Contour) :=
  let width := length (default [] (head g)) in
  let rows := (fun row => existsb (fun v => negb (v =? 0)) row) <$> g in
  let cols :=
    (fun x => existsb (fun row => negb (default 0 (row !! x) =? 0)) g)
      <$> seq 0 width in
  match span rows, span cols with
  | Some (y0, y1), Some (x0, x1) =>
      Ok [ ((fun y => (x0, y)) <$> range y0 y1)
           ++ ((fun x => (x, y1)) <$> range (x0 + 1) x1)
           ++ ((fun y => (x1, y)) <$> reverse (range y0 (y1 - 1)))
           ++ ((fun x => (x, y0)) <$> reverse (range (x0 + 1) (x1 - 1))) ]
  | _, _ => Ok []
  end.

(** The edges of the closed polygon, each with its predecessor vertex. *)
Definition edges (c : Contour) : list ((Z * Z) * (Z * Z)) :=
  match c with
  | [] => []
  | p :: rest => zip (List.last rest p :: c) c
  end.

Definition edge_cross (e : (Z * Z) * (Z * Z)) : Z :=
  e.1.1 * e.2.2 - e.2.1 * e.1.2.

(** Shoelace area. *)
Definition area (c : Contour) : Q :=
  Qmake (Z.abs (sum_list (edge_cross <$> edges c))) 2.

(** Perimeter; square roots are taken to six decimal places. *)
Definition perimeter (c : Contour) (closed : bool) : Q :=
  let segs := if closed then edges c else tail (edges c) in
  sum_list ((fun e => Z.sqrt (SpecDP.dist2 e.1 e.2 * 10 ^ 12)) <$> segs)
  # 1000000.

(** Polygon moments by Green's formula, oriented so that [m00 >= 0]. *)
Definition polygon_moments (c : Contour) : Moments :=
  let a00 := sum_list (edge_cross <$> edges c) in
  let a10 := sum_list ((fun e => edge_cross e * (e.1.1 + e.2.1)) <$> edges c) in
  let a01 := sum_list ((fun e => edge_cross e * (e.1.2 + e.2.2)) <$> edges c) in
  let sgn := if a00 <? 0 then -1 else 1 in
  {| m00 := Qmake (sgn * a00) 2;
     m10 := Qmake (sgn * a10) 6;
     m01 := Qmake (sgn * a01) 6 |}.

Definition cv2 (decode : string -> option ndarray) : Cv2 :=
  {| imdecode := decode;
     cvtColor := to_gray;
     GaussianBlur := blur;
     neighbourhood_mean := mean_at;
     getStructuringElement := structuring_element;
     morphologyEx := morphology;
     findContours := trace;
     contourArea := area;
     arcLength := perimeter;
     approxPolyDP := fun c eps closed => SpecDP.simplify eps c;
     moments := polygon_moments |}.

Definition dquote : string := String (Ascii.ascii_of_nat 34) EmptyString.

Definition attr (k v : string) : string :=
  " " +:+ k +:+ "=" +:+ dquote +:+ v +:+ dquote.

Definition element_xml (e : Element) : string :=
  match e with
  | rect ins sz fill =>
      "<rect" +:+ attr "fill" fill +:+ attr "height" (str sz.2)
      +:+ attr "width" (str sz.1) +:+ attr "x" (str ins.1)
      +:+ attr "y" (str ins.2) +:+ " />"
  | path d fill stroke =>
      "<path" +:+ attr "d" d +:+ attr "fill" fill
      +:+ attr "stroke" stroke +:+ " />"
  end.

Definition xml (dwg : Drawing) : string :=
  "<svg" +:+ attr "height" (str (size dwg).2)
  +:+ attr "viewBox" (viewBox dwg) +:+ attr "width" (str (size dwg).1)
  +:+ ">" +:+ String.concat EmptyString (element_xml <$> elements dwg)
  +:+ "</svg>".

Definition svgwrite : Svgwrite := {| tostring := xml |}.

End Reference.

(** ** The vocabulary of the specification *)

Definition is_hex_digit (c : ascii) : bool :=
  let n := N_of_ascii c in
  ((48 <=? n) && (n <=? 57) || (97 <=? n) && (n <=? 102))%N.

Definition hex_value (c : ascii) : Z :=
  let n := Z.of_N (N_of_ascii c) in
  if n <=? 57 then n - 48 else n - 87.

(** [v] is printed as exactly two hexadecimal digits that denote it. *)
Definition two_hex_digits (v : Z) : bool :=
  match format_02x v with
  | String c1 (String c2 EmptyString) =>
      is_hex_digit c1 && is_hex_digit c2
      && (16 * hex_value c1 + hex_value c2 =? v)
  | _ => false
  end.

(** [s] is the six-digit [#rrggbb] rendering of the colour [(r, g, b)]. *)
Definition is_rrggbb (s : string) (r g b : Z) : bool :=
  match s with
  | String "#" (String r1 (String r2 (String g1 (String g2
      (String b1 (String b2 EmptyString)))))) =>
      forallb is_hex_digit [r1; r2; g1; g2; b1; b2]
      && (16 * hex_value r1 + hex_value r2 =? r)
      && (16 * hex_value g1 + hex_value g2 =? g)
      && (16 * hex_value b1 + hex_value b2 =? b)
  | _ => false
  end.

(** The [d] attribute of a region: move to the first point, line to each
    further point, close. *)
Definition svg_path_d (pts : Contour) : string :=
  match pts with
  | [] => "Z"
  | (x0, y0) :: rest =>
      join " " (("M " +:+ str x0 +:+ "," +:+ str y0)
                :: ((fun pt : Z * Z => "L " +:+ str pt.1 +:+ "," +:+ str pt.2)
                      <$> rest)
                ++ ["Z"])
  end.

(** A contour passes the area filter. *)
Definition qualifies `{Cv2} (min_area : Z) (contour : Contour) : bool :=
  Qle_bool (inject_Z min_area) (contourArea contour).

(** Apply a fallible step to every element, stopping at the first failure. *)
Fixpoint collect {A B} (f : A -> result B) (l : list A) : result (list B) :=
  match l with
  | [] => Ok []
  | x :: l' => y ← f x; ys ← collect f l'; Ok (y :: ys)
  end.

(** [dwg] with further children appended. *)
Definition extend (dwg : Drawing) (es : list Element) : Drawing :=
  {| filename := filename dwg; size := size dwg; viewBox := viewBox dwg;
     elements := elements dwg ++ es |}.

(** The document of the specification: the background rectangle over the
    whole canvas, then the regions in order. *)
Definition document (output_path : string) (h w : nat) (bg : string)
    (regions : list Element) : Drawing :=
  {| filename := output_path;
     size := (Z.of_nat w, Z.of_nat h);
     viewBox := "0 0 " +:+ str (Z.of_nat w) +:+ " " +:+ str (Z.of_nat h);
     elements := rect (0, 0) (Z.of_nat w, Z.of_nat h) bg :: regions |}.

(** The world after [dwg] has been saved and the closing message printed. *)
Definition after_save `{Svgwrite} (dwg : Drawing) (σ : World) : World :=
  print ("âœ… Perfect SVG saved to " +:+ filename dwg)
    {| files := <[filename dwg := tostring dwg]> (files σ);
       denied := denied σ; stdout := stdout σ |}.

(** The loop as the specification tells it: filter by area, then turn every
    remaining contour into a region, in order. *)
Definition filtered_regions `{Cv2} (img : ndarray) (h w : nat) (detail : Q)
    (min_area : Z) (contours : list Contour) : result (list Element) :=
  collect (region img h w detail)
    (filter (fun c => qualifies min_area c = true) contours).

(** ** Sample inputs *)

Module Samples.

Definition white : list Z := [255; 255; 255].
Definition black : list Z := [0; 0; 0].

(** A 4x4 opaque image: a black 2x2 block on white. *)
Definition block_image : ndarray :=
  Array3 4 4 3 [ [white; white; white; white];
                 [white; black; black; white];
                 [white; black; black; white];
                 [white; white; white; white] ].

(** A uniformly white 2x2 image. *)
Definition blank_image : ndarray :=
  Array3 2 2 3 [ [white; white]; [white; white] ].

(** A 1x2 image with alpha: a transparent pixel that stores a dark colour,
    then a half-transparent one. *)
Definition rgba_image : ndarray :=
  Array3 1 2 4 [ [ [10; 20; 30; 0]; [40; 50; 60; 128] ] ].

(** The same size, transparent everywhere. *)
Definition clear_image : ndarray :=
  Array3 1 2 4 [ [ [10; 20; 30; 0]; [40; 50; 60; 0] ] ].

(** A 1x2 single-channel image. *)
Definition gray_image : ndarray := Array2 1 2 [ [100; 118] ].

Definition decode (bytes : string) : option ndarray :=
  if String.eqb bytes "block" then Some block_image
  else if String.eqb bytes "blank" then Some blank_image
  else if String.eqb bytes "rgba" then Some rgba_image
  else if String.eqb bytes "gray" then Some gray_image
  else None.

Definition cv : Cv2 := Reference.cv2 decode.

Definition world : World :=
  {| files := {[ "block.png" := "block"; "blank.png" := "blank";
                 "rgba.png" := "rgba"; "gray.png" := "gray" ]};
     denied := ∅;
     stdout := [] |}.

(** A 1x3 rectangle (area 3) and a 2x2 square (area 4). *)
Definition strip : Contour := [(0, 0); (0, 3); (1, 3); (1, 0)].
Definition square : Contour := [(0, 0); (0, 2); (2, 2); (2, 0)].

(** Rectangles of area 249 and 250, one below and one at the default
    threshold. *)
Definition below_default : Contour := [(0, 0); (0, 249); (1, 249); (1, 0)].
Definition at_default : Contour := [(0, 0); (0, 25); (10, 25); (10, 0)].

(** A degenerate contour: two points, no area. *)
Definition sliver : Contour := [(1, 1); (2, 1)].

Definition canvas : Drawing := document "out.svg" 4 4 "#ffffff" [].

End Samples.

Module PdfSamples.
Import Pdf.

Definition nl : string := newline.

(** A text with three headings, two of them alike. *)
Definition book : string :=
  "Preface" +:+ nl +:+ "CHAPTER 1 Start" +:+ nl +:+ "first text" +:+ nl
  +:+ "CHAPTER 2: Next" +:+ nl +:+ "second text" +:+ nl
  +:+ "CHAPTER 1 Start" +:+ nl +:+ "revised text".

(** A text without headings. *)
Definition notes : string :=
  "alpha" +:+ nl +:+ nl +:+ "beta" +:+ nl +:+ nl +:+ nl +:+ "gamma".

(** Two titles that differ in punctuation only. *)
Definition clashing : Dict :=
  [ ("CHAPTER 1: Start", "one"); ("Chapter 2", "two");
    ("CHAPTER 1 - Start", "three") ].

Definition disk : World :=
  {| files := {[ "out/Chapter_2.txt" := "old"; "notes.txt" := "keep" ]};
     denied := {[ "locked/Chapter_2.txt" ]};
     stdout := [] |}.

End PdfSamples.

(* ===================================================================== *)
(** * Theorems *)

Section Loader.

Lemma fmap2_compose {A B C} (f : A -> B) (g : B -> C) (a : list (list A)) :
  map2 g (map2 f a) = map2 (g ∘ f) a.
Proof.
  rewrite <- list_fmap_compose. apply list_fmap_ext. intros _ row _. simpl.
  by rewrite <- list_fmap_compose.
Qed.

Lemma at2_fmap {A B} (f : A -> B) (a : list (list A)) (y x : nat) :
  at2 (map2 f a) y x = f <$> at2 a y x.
Proof.
  unfold at2. rewrite list_lookup_fmap.
  destruct (a !! y) as [row|]; simpl; [|done]. by rewrite list_lookup_fmap.
Qed.

Lemma np_where_same {X} (c : X -> bool) (f g : X -> list Z)
    (a : list (list X)) :
  np_where (map2 c a) (map2 f a) (map2 g a)
  = map2 (fun px =>
            zip_with (fun p q : Z => if c px then p else q) (f px) (g px)) a.
Proof.
  unfold np_where. induction a as [|row a IH]; [done|].
  simpl. f_equal; [|exact IH].
  clear IH. induction row as [|px row IH]; [done|].
  simpl. by f_equal.
Qed.

Lemma handle_alpha_rgba (h w : nat) (a : list (list (list Z))) :
  handle_alpha (Array3 h w 4 a)
  = Ok (Array3 h w 3 (map2 composite a)).
Proof.
  unfold handle_alpha. simpl. do 2 f_equal.
  unfold channel, ones_like_times, channels_upto.
  rewrite !fmap2_compose.
  rewrite np_where_same. apply list_fmap_ext. intros _ row _.
  apply list_fmap_ext. intros _ px _. reflexivity.
Qed.

Lemma handle_alpha_other (h w c : nat) (a : list (list (list Z))) :
  c <> 4%nat -> handle_alpha (Array3 h w c a) = Ok (Array3 h w c a).
Proof.
  intros Hc. unfold handle_alpha. simpl.
  destruct (Nat.eqb_spec c 4); [done|reflexivity].
Qed.

Lemma composite_rgba (b g r al : Z) :
  composite [b; g; r; al] = if al =? 0 then [255; 255; 255] else [b; g; r].
Proof. unfold composite. simpl. by destruct (al =? 0). Qed.

Lemma fmap_const_replicate {A B} (f : A -> B) (v : B) (l : list A) :
  Forall (fun x => f x = v) l -> f <$> l = replicate (length l) v.
Proof. induction 1 as [|x l Hx _ IH]; csimpl; [done|]. by rewrite Hx, IH. Qed.

Lemma handle_alpha_wf (img img' : ndarray) :
  wf_ndarray img -> handle_alpha img = Ok img' -> wf_ndarray img'.
Proof.
  destruct img as [h w a|h w c a]; [done|].
  destruct (decide (c = 4%nat)) as [->|Hc].
  - rewrite handle_alpha_rgba. intros [Hh Hrows] [= <-].
    split; [by rewrite length_fmap|].
    apply Forall_fmap. eapply Forall_impl; [exact Hrows|].
    intros row [Hw Hpx]. simpl. split; [by rewrite length_fmap|].
    apply Forall_fmap. eapply Forall_impl; [exact Hpx|].
    intros px [Hc Hs]. simpl.
    destruct px as [|b [|g [|r [|al [|? ?]]]]]; try discriminate.
    rewrite composite_rgba.
    apply Forall_cons in Hs as [Hb Hs]. apply Forall_cons in Hs as [Hg Hs].
    apply Forall_cons in Hs as [Hr _].
    destruct (al =? 0); (split; [done|]);
      repeat constructor; unfold is_uint8 in *; lia.
  - rewrite handle_alpha_other by done. by intros ? [= <-].
Qed.

(** C3.  On a four-channel image the loader yields a three-channel image
    of the same size in which exactly the pixels with alpha 0 are white
    and every other pixel keeps its three colour samples unchanged; when
    alpha is 0 everywhere the result is the image the loader yields for
    an opaque all-white image. *)
Theorem alpha_zero_becomes_white (h w : nat) (a : list (list (list Z))) :
  wf_ndarray (Array3 h w 4 a) ->
  exists a' : list (list (list Z)),
    handle_alpha (Array3 h w 4 a) = Ok (Array3 h w 3 a') /\
    wf_ndarray (Array3 h w 3 a') /\
    (forall (y x : nat) (b g r al : Z),
        at2 a y x = Some [b; g; r; al] ->
        at2 a' y x = Some (if al =? 0 then [255; 255; 255] else [b; g; r])) /\
    ((forall (y x : nat) (px : list Z),
         at2 a y x = Some px -> px !! 3%nat = Some 0) ->
     Array3 h w 3 a' = white_image h w /\
     handle_alpha (Array3 h w 4 a) = handle_alpha (white_image h w)).
Proof.
  intros [Hh Hrows].
  exists (map2 composite a).
  split; [apply handle_alpha_rgba|]. split; [|split].
  - eapply handle_alpha_wf; [|apply handle_alpha_rgba]. by split.
  - intros y x b g r al Hpx. rewrite at2_fmap, Hpx. simpl.
    by rewrite composite_rgba.
  - intros Hzero.
    assert (map2 composite a = replicate h (replicate w [255; 255; 255]))
      as Heq.
    { rewrite <- Hh. apply fmap_const_replicate.
      apply Forall_lookup_2. intros y row Hrow.
      pose proof (Forall_lookup_1 _ _ _ _ Hrows Hrow) as [Hw Hpx].
      rewrite <- Hw. apply fmap_const_replicate.
      apply Forall_lookup_2. intros x px Hx.
      pose proof (Forall_lookup_1 _ _ _ _ Hpx Hx) as [Hc _].
      assert (px !! 3%nat = Some 0) as H3.
      { apply (Hzero y x). unfold at2. by rewrite Hrow. }
      destruct px as [|b [|g [|r [|al [|? ?]]]]]; try discriminate.
      simpl in H3. injection H3 as ->. by rewrite composite_rgba. }
    rewrite Heq. split; [reflexivity|].
    rewrite handle_alpha_rgba, Heq. unfold white_image.
    by rewrite handle_alpha_other.
Qed.

End Loader.

Section Floats.

Lemma Qltb_lt (a b : Q) : Qltb a b = true <-> (a < b)%Q.
Proof. unfold Qltb, Qlt. apply Z.ltb_lt. Qed.

Lemma Qltb_ge (a b : Q) : Qltb a b = false <-> (b <= a)%Q.
Proof. unfold Qltb, Qle. apply Z.ltb_ge. Qed.

Lemma Qltb_le_bool (a b : Q) : Qltb a b = negb (Qle_bool b a).
Proof. unfold Qltb, Qle_bool. apply Z.ltb_antisym. Qed.

End Floats.

Section ContourLoop.
Context `{Cv2}.
Variables (img : ndarray) (h w : nat) (detail : Q) (min_area : Z).

Lemma qualifies_le (c : Contour) :
  qualifies min_area c = true <-> (inject_Z min_area <= contourArea c)%Q.
Proof. unfold qualifies. apply Qle_bool_iff. Qed.

Lemma extend_nil (dwg : Drawing) : extend dwg [] = dwg.
Proof. destruct dwg. unfold extend. simpl. by rewrite app_nil_r. Qed.

Lemma extend_add (dwg : Drawing) (e : Element) (es : list Element) :
  extend (add dwg e) es = extend dwg (e :: es).
Proof. unfold extend, add. simpl. by rewrite <- app_assoc. Qed.

(** The loop is the filter followed by the per-contour step. *)
Lemma trace_contours_filtered (contours : list Contour) (dwg : Drawing) :
  trace_contours img h w detail min_area contours dwg
  = (ps ← filtered_regions img h w detail min_area contours;
     Ok (extend dwg ps)).
Proof.
  unfold filtered_regions.
  revert dwg. induction contours as [|c cs IH]; intros dwg.
  - simpl. by rewrite extend_nil.
  - simpl. rewrite filter_cons, Qltb_le_bool. fold (qualifies min_area c).
    destruct (qualifies min_area c) eqn:Hq; simpl.
    + destruct (region img h w detail c) as [p|e]; simpl; [|done].
      rewrite IH.
      destruct (collect _ _) as [ps|e]; simpl; [|done].
      by rewrite extend_add.
    + apply IH.
Qed.

Lemma collect_Forall2 {A B} (f : A -> result B) (l : list A) (ys : list B) :
  collect f l = Ok ys <-> Forall2 (fun x y => f x = Ok y) l ys.
Proof.
  revert ys. induction l as [|x l IH]; intros ys; simpl.
  - split; [intros [= <-]; constructor|by inversion 1].
  - destruct (f x) as [y|e] eqn:Hx; simpl.
    + destruct (collect f l) as [ys'|e] eqn:Hl; simpl.
      * split.
        -- intros [= <-]. constructor; [done|]. by apply IH.
        -- inversion 1 as [|? y' ? ys'' Hy Hys]; subst.
           apply IH in Hys. congruence.
      * split; [done|]. inversion 1 as [|? y' ? ys'' Hy Hys]; subst.
        apply IH in Hys. done.
    + split; [done|]. inversion 1; congruence.
Qed.

Lemma Forall2_with_left {A B} (P : A -> Prop) (R : A -> B -> Prop)
    (l : list A) (k : list B) :
  Forall2 R l k -> Forall P l -> Forall2 (fun x y => P x /\ R x y) l k.
Proof.
  induction 1 as [|x y l k Hxy _ IH]; [constructor|].
  intros [Hx Hl]%Forall_cons. constructor; [done|]. by apply IH.
Qed.

Lemma trace_contours_Ok (contours : list Contour) (dwg dwg' : Drawing) :
  trace_contours img h w detail min_area contours dwg = Ok dwg' <->
  exists ps : list Element,
    filtered_regions img h w detail min_area contours = Ok ps /\
    dwg' = extend dwg ps.
Proof.
  rewrite trace_contours_filtered.
  destruct (filtered_regions _ _ _ _ _ _) as [ps|e]; simpl.
  - split; [intros [= <-]; eauto|intros (ps' & [= <-] & ->); done].
  - split; [done|intros (ps' & [=] & _)].
Qed.

Lemma area_below_rejected (c : Contour) :
  (contourArea c == inject_Z (min_area - 1))%Q -> qualifies min_area c = false.
Proof.
  intros Ha. apply not_true_is_false. rewrite qualifies_le, Ha.
  rewrite <- Zle_Qle. lia.
Qed.

Lemma area_equal_accepted (c : Contour) :
  (contourArea c == inject_Z min_area)%Q -> qualifies min_area c = true.
Proof. intros Ha. rewrite qualifies_le, Ha. apply Qle_refl. Qed.

(** C1.  The loop computes the area of every extracted contour and drops
    the contour, before anything else is done with it, exactly when the
    area is below [min_area]: a contour of area [min_area - 1] leaves no
    trace in the document, a contour of area [min_area] contributes its
    region, and every region of the document comes from a contour of
    area at least [min_area]. *)
Theorem area_filter_boundary (contours : list Contour) (dwg : Drawing) :
  trace_contours img h w detail min_area contours dwg
  = (ps ← filtered_regions img h w detail min_area contours;
     Ok (extend dwg ps))
  /\ (forall c : Contour,
        qualifies min_area c = true
        <-> (inject_Z min_area <= contourArea c)%Q)
  /\ (forall (c : Contour) (before after : list Contour),
        (contourArea c == inject_Z (min_area - 1))%Q ->
        trace_contours img h w detail min_area (before ++ c :: after) dwg
        = trace_contours img h w detail min_area (before ++ after) dwg)
  /\ (forall (c : Contour) (before after : list Contour) (dwg' : Drawing),
        (contourArea c == inject_Z min_area)%Q ->
        trace_contours img h w detail min_area (before ++ c :: after) dwg
        = Ok dwg' ->
        exists (ps1 : list Element) (p : Element) (ps2 : list Element),
          filtered_regions img h w detail min_area before = Ok ps1 /\
          region img h w detail c = Ok p /\
          filtered_regions img h w detail min_area after = Ok ps2 /\
          elements dwg' = elements dwg ++ ps1 ++ p :: ps2)
  /\ (forall dwg' : Drawing,
        trace_contours img h w detail min_area contours dwg = Ok dwg' ->
        exists ps : list Element,
          elements dwg' = elements dwg ++ ps /\
          Forall2 (fun c p =>
              (c ∈ contours /\
               (inject_Z min_area <= contourArea c)%Q) /\
              region img h w detail c = Ok p)
            (filter (fun c => qualifies min_area c = true) contours) ps).
Proof.
  split; [apply trace_contours_filtered|].
  split; [apply qualifies_le|].
  split; [|split].
  - intros c before after Ha.
    rewrite !trace_contours_filtered. unfold filtered_regions.
    rewrite !filter_app, filter_cons.
    by rewrite (area_below_rejected c Ha), decide_False.
  - intros c before after dwg' Ha Hrun.
    apply trace_contours_Ok in Hrun as (ps & Hps & ->).
    unfold filtered_regions in *.
    rewrite filter_app, filter_cons in Hps.
    rewrite (area_equal_accepted c Ha), decide_True in Hps by done.
    apply collect_Forall2 in Hps.
    apply Forall2_app_inv_l in Hps as (ps1 & ps' & H1 & H2 & ->).
    inversion H2 as [|? p ? ps2 Hp H3]; subst.
    exists ps1, p, ps2. rewrite !collect_Forall2. done.
  - intros dwg' Hrun.
    apply trace_contours_Ok in Hrun as (ps & Hps & ->).
    exists ps. split; [done|].
    apply collect_Forall2 in Hps.
    apply Forall2_with_left; [exact Hps|].
    apply Forall_forall. intros c Hc.
    apply list_elem_of_filter in Hc as [Hq Hc].
    split; [done|]. by apply qualifies_le.
Qed.

End ContourLoop.

Section Formatting.

Lemma two_hex_digits_table :
  forallb two_hex_digits (Z.of_nat <$> seq 0 256) = true.
Proof. vm_compute. reflexivity. Qed.

Lemma format_02x_uint8 (v : Z) :
  is_uint8 v ->
  exists c1 c2 : ascii,
    format_02x v = String c1 (String c2 EmptyString) /\
    is_hex_digit c1 = true /\ is_hex_digit c2 = true /\
    16 * hex_value c1 + hex_value c2 = v.
Proof.
  intros Hv. unfold is_uint8 in Hv.
  assert (two_hex_digits v = true) as Hok.
  { pose proof two_hex_digits_table as Htab.
    rewrite forallb_forall in Htab. apply Htab.
    apply list_elem_of_In, list_elem_of_fmap.
    exists (Z.to_nat v). split; [lia|]. apply elem_of_seq. lia. }
  unfold two_hex_digits in Hok.
  destruct (format_02x v) as [|c1 [|c2 [|? ?]]]; try discriminate.
  exists c1, c2. split; [done|].
  apply andb_prop in Hok as [Hok H3]. apply andb_prop in Hok as [H1 H2].
  apply Z.eqb_eq in H3. done.
Qed.

Lemma rrggbb_format (r g b : Z) :
  is_uint8 r -> is_uint8 g -> is_uint8 b ->
  is_rrggbb ("#" +:+ format_02x r +:+ format_02x g +:+ format_02x b) r g b
  = true.
Proof.
  intros (r1 & r2 & -> & Hr1 & Hr2 & Hr)%format_02x_uint8
         (g1 & g2 & -> & Hg1 & Hg2 & Hg)%format_02x_uint8
         (b1 & b2 & -> & Hb1 & Hb2 & Hb)%format_02x_uint8.
  simpl. rewrite Hr1, Hr2, Hg1, Hg2, Hb1, Hb2. simpl.
  rewrite Hr, Hg, Hb, !Z.eqb_refl. reflexivity.
Qed.

(** The list the loop builds, joined, is the move/line/close sequence. *)
Lemma path_data_svg (pts : Contour) :
  join " " (path_data pts) = svg_path_d pts.
Proof.
  destruct pts as [|[x0 y0] rest]; [reflexivity|].
  unfold path_data, svg_path_d. rewrite imap_cons, <- app_comm_cons.
  assert (forall (l : list (Z * Z)) (k : nat),
    imap (fun i pt =>
            let '(x, y) := pt in
            (if (S (k + i) =? 0)%nat then "M" else "L")
            +:+ " " +:+ str x +:+ "," +:+ str y) l
    = (fun pt : Z * Z => "L " +:+ str pt.1 +:+ "," +:+ str pt.2) <$> l) as Haux.
  { induction l as [|[x y] l IH]; intros k; [done|].
    rewrite imap_cons. csimpl. f_equal.
    erewrite imap_ext; [apply (IH (S k))|].
    by intros i [x' y'] _. }
  f_equal. f_equal. f_equal. apply (Haux rest 0%nat).
Qed.

End Formatting.

Section Sampling.

Lemma np_index_in_range (n : nat) (i : Z) :
  0 <= i < Z.of_nat n -> np_index n i = Ok (Z.to_nat i).
Proof.
  intros Hi. unfold np_index.
  destruct (Z.leb_spec 0 i); [|lia].
  destruct (Z.ltb_spec i (Z.of_nat n)); [|lia].
  reflexivity.
Qed.

Lemma np_index_Ok (n : nat) (i : Z) (j : nat) :
  np_index n i = Ok j -> (j < n)%nat.
Proof.
  unfold np_index.
  destruct (Z.leb_spec 0 i), (Z.ltb_spec i (Z.of_nat n)); simpl;
    try (intros [= <-]; lia);
    destruct (Z.leb_spec (- Z.of_nat n) i), (Z.ltb_spec i 0); simpl;
    try discriminate; intros [= <-]; lia.
Qed.

Lemma clamp_in_range (n : nat) (v : Z) :
  (0 < n)%nat ->
  0 <= Z.min (Z.max v 0) (Z.of_nat n - 1) <= Z.of_nat n - 1.
Proof. lia. Qed.

Lemma wf_at2 (h w c : nat) (a : list (list (list Z))) (y x : nat) :
  wf_ndarray (Array3 h w c a) -> (y < h)%nat -> (x < w)%nat ->
  exists px : list Z,
    at2 a y x = Some px /\ length px = c /\ Forall is_uint8 px.
Proof.
  intros [Hh Hrows] Hy Hx. unfold at2.
  destruct (lookup_lt_is_Some_2 a y) as [row Hrow]; [lia|].
  pose proof (Forall_lookup_1 _ _ _ _ Hrows Hrow) as [Hw Hpx].
  destruct (lookup_lt_is_Some_2 row x) as [px Hp]; [lia|].
  pose proof (Forall_lookup_1 _ _ _ _ Hpx Hp) as [Hc Hu].
  exists px. rewrite Hrow. simpl. done.
Qed.

Lemma getitem2_in_range (h w c : nat) (a : list (list (list Z))) (y x : Z) :
  wf_ndarray (Array3 h w c a) ->
  0 <= y < Z.of_nat h -> 0 <= x < Z.of_nat w ->
  exists px : list Z,
    getitem2 (Array3 h w c a) y x = Ok px /\
    at2 a (Z.to_nat y) (Z.to_nat x) = Some px /\
    length px = c /\ Forall is_uint8 px.
Proof.
  intros Hwf Hy Hx.
  destruct (wf_at2 h w c a (Z.to_nat y) (Z.to_nat x) Hwf)
    as (px & Hp & Hc & Hu);
    [lia..|].
  exists px. unfold getitem2.
  rewrite (np_index_in_range h y Hy), (np_index_in_range w x Hx). simpl.
  by rewrite Hp.
Qed.

Lemma getitem2_Ok (h w c : nat) (a : list (list (list Z))) (y x : Z)
    (px : list Z) :
  wf_ndarray (Array3 h w c a) ->
  getitem2 (Array3 h w c a) y x = Ok px ->
  length px = c /\ Forall is_uint8 px.
Proof.
  intros Hwf. unfold getitem2.
  destruct (np_index h y) as [j|] eqn:Hj; simpl; [|done].
  destruct (np_index w x) as [i|] eqn:Hi; simpl; [|done].
  apply np_index_Ok in Hj, Hi.
  destruct (wf_at2 h w c a j i Hwf Hj Hi) as (px' & -> & Hc & Hu).
  by intros [= <-].
Qed.



End Sampling.

Section ColourSampling.
Context `{Cv2}.

Lemma region_Ok (img : ndarray) (h w : nat) (detail : Q) (c : Contour)
    (e : Element) :
  region img h w detail c = Ok e <->
  valid_epsilon (detail * arcLength c true) = true /\
  exists (cx cy b g r : Z),
    sample_point c (approxPolyDP c (detail * arcLength c true)%Q true)
    = Ok (cx, cy) /\
    sample_pixel img h w cx cy = Ok [b; g; r] /\
    e = path (svg_path_d (approxPolyDP c (detail * arcLength c true)%Q true))
          ("#" +:+ format_02x r +:+ format_02x g +:+ format_02x b) "none".
Proof.
  unfold region, cv2_approxPolyDP.
  destruct (valid_epsilon _) eqn:Heps; simpl;
    [|split; [done|by intros [? _]]].
  rewrite path_data_svg.
  destruct (sample_point _ _) as [[cx cy]|ex]; simpl.
  - destruct (sample_pixel img h w cx cy) as [px|ex] eqn:Hread; simpl.
    + split.
      * destruct px as [|b [|g [|r [|? ?]]]]; try discriminate.
        intros [= <-]. split; [done|]. by exists cx, cy, b, g, r.
      * intros (_ & ? & ? & b & g & r & [= <- <-] & Hpx & ->).
        rewrite Hread in Hpx. by injection Hpx as ->.
    + split; [done|].
      intros (_ & ? & ? & b & g & r & [= <- <-] & Hpx & ->).
      rewrite Hread in Hpx. discriminate.
  - split; [done|]. intros (_ & ? & ? & b & g & r & Hpt & Hpx & ->). done.
Qed.

Lemma region_invalid_epsilon (img : ndarray) (h w : nat) (detail : Q)
    (c : Contour) :
  valid_epsilon (detail * arcLength c true) = false ->
  region img h w detail c = Raise cv2_error.
Proof.
  intros Heps. unfold region, cv2_approxPolyDP. by rewrite Heps.
Qed.

Lemma valid_epsilon_spec (epsilon : Q) :
  valid_epsilon epsilon = true <->
  (0 <= epsilon)%Q /\ (epsilon < epsilon_limit)%Q.
Proof.
  unfold valid_epsilon, Qltb, Qle, Qlt. simpl.
  rewrite andb_true_iff, negb_true_iff, Z.ltb_ge, Z.ltb_lt. lia.
Qed.

Lemma sample_pixel_clamped (h w : nat) (a : list (list (list Z))) (cx cy : Z) :
  wf_ndarray (Array3 h w 3 a) -> (0 < h)%nat -> (0 < w)%nat ->
  exists (y x : nat) (b g r : Z),
    Z.of_nat y = Z.min (Z.max cy 0) (Z.of_nat h - 1) /\
    Z.of_nat x = Z.min (Z.max cx 0) (Z.of_nat w - 1) /\
    (y < h)%nat /\ (x < w)%nat /\
    at2 a y x = Some [b; g; r] /\
    sample_pixel (Array3 h w 3 a) h w cx cy = Ok [b; g; r].
Proof.
  intros Hwf Hh Hw. unfold sample_pixel.
  pose proof (clamp_in_range h cy Hh) as Hy.
  pose proof (clamp_in_range w cx Hw) as Hx.
  destruct (getitem2_in_range h w 3 a
              (Z.min (Z.max cy 0) (Z.of_nat h - 1))
              (Z.min (Z.max cx 0) (Z.of_nat w - 1)) Hwf)
    as (px & Hget & Hat & Hlen & _); [lia..|].
  destruct px as [|b [|g [|r [|? ?]]]]; try discriminate.
  exists (Z.to_nat (Z.min (Z.max cy 0) (Z.of_nat h - 1))),
         (Z.to_nat (Z.min (Z.max cx 0) (Z.of_nat w - 1))), b, g, r.
  repeat split; try done; lia.
Qed.

(** C4.  The fill colour of a region is read at the centroid
    [(M10/M00, M01/M00)] of the raw contour (cut to integers) when [M00]
    is not zero and at the first vertex of the simplified polygon
    otherwise; in both cases the point is clamped into
    [0, w-1] x [0, h-1] first, so the read always hits a pixel of the
    image.  A contour yields a region exactly when the simplification
    accepts its tolerance [epsilon = detail * perimeter]
    ([0 <= epsilon < 1e30]) and a sampling point exists; the region then
    carries the colour of the pixel at the clamped point.  With any other
    tolerance the simplification raises and there is no region. *)
Theorem fill_colour_sampling (h w : nat) (a : list (list (list Z)))
    (detail : Q) (c : Contour) :
  wf_ndarray (Array3 h w 3 a) -> (0 < h)%nat -> (0 < w)%nat ->
  let img := Array3 h w 3 a in
  let epsilon := (detail * arcLength c true)%Q in
  let smooth := approxPolyDP c epsilon true in
  let M := moments c in
  (~ (m00 M == 0)%Q ->
     sample_point c smooth
     = Ok (int_of_float (m10 M / m00 M), int_of_float (m01 M / m00 M)))
  /\ ((m00 M == 0)%Q ->
      forall (pt : Z * Z) (rest : Contour),
        smooth = pt :: rest -> sample_point c smooth = Ok pt)
  /\ (forall cx cy : Z,
        sample_point c smooth = Ok (cx, cy) ->
        exists (y x : nat) (b g r : Z),
          Z.of_nat y = Z.min (Z.max cy 0) (Z.of_nat h - 1) /\
          Z.of_nat x = Z.min (Z.max cx 0) (Z.of_nat w - 1) /\
          (y < h)%nat /\ (x < w)%nat /\
          at2 a y x = Some [b; g; r] /\
          sample_pixel img h w cx cy = Ok [b; g; r] /\
          ((0 <= epsilon)%Q -> (epsilon < epsilon_limit)%Q ->
           region img h w detail c
           = Ok (path (svg_path_d smooth)
                   ("#" +:+ format_02x r +:+ format_02x g +:+ format_02x b)
                   "none")))
  /\ (forall e : Element,
        region img h w detail c = Ok e ->
        (0 <= epsilon)%Q /\ (epsilon < epsilon_limit)%Q /\
        exists (cx cy : Z) (y x : nat) (b g r : Z),
          sample_point c smooth = Ok (cx, cy) /\
          Z.of_nat y = Z.min (Z.max cy 0) (Z.of_nat h - 1) /\
          Z.of_nat x = Z.min (Z.max cx 0) (Z.of_nat w - 1) /\
          (y < h)%nat /\ (x < w)%nat /\
          at2 a y x = Some [b; g; r] /\
          e = path (svg_path_d smooth)
                ("#" +:+ format_02x r +:+ format_02x g +:+ format_02x b)
                "none")
  /\ (~ ((0 <= epsilon)%Q /\ (epsilon < epsilon_limit)%Q) ->
      region img h w detail c = Raise cv2_error).
Proof.
  intros Hwf Hh Hw img epsilon smooth M. split; [|split; [|split; [|split]]].
  - intros Hnz. unfold sample_point. fold M.
    destruct (Qeq_bool (m00 M) 0) eqn:Hz; [|reflexivity].
    apply Qeq_bool_eq in Hz. contradiction.
  - intros Hz pt rest Hs. unfold sample_point. fold M.
    apply Qeq_eq_bool in Hz. rewrite Hz, Hs. reflexivity.
  - intros cx cy Hpt.
    destruct (sample_pixel_clamped h w a cx cy Hwf Hh Hw)
      as (y & x & b & g & r & Hy & Hx & Hyh & Hxw & Hat & Hread).
    exists y, x, b, g, r. repeat split; try done.
    intros Hlo Hhi. apply region_Ok. split.
    + by apply valid_epsilon_spec.
    + by exists cx, cy, b, g, r.
  - intros e (Heps & cx & cy & b & g & r & Hpt & Hpx & ->)%region_Ok.
    apply valid_epsilon_spec in Heps as [Hlo Hhi].
    split; [done|]. split; [done|].
    destruct (sample_pixel_clamped h w a cx cy Hwf Hh Hw)
      as (y & x & b' & g' & r' & Hy & Hx & Hyh & Hxw & Hat & Hread).
    fold img in Hread. rewrite Hpx in Hread. injection Hread as <- <- <-.
    by exists cx, cy, y, x, b, g, r.
  - intros Hbad. apply region_invalid_epsilon.
    destruct (valid_epsilon _) eqn:Heps; [|done].
    by apply valid_epsilon_spec in Heps.
Qed.

End ColourSampling.

Section Document.
Context `{Cv2}.

Lemma build_drawing_unfold (img : ndarray) (output_path : string)
    (blur_strength detail : Q) (min_area : Z) :
  build_drawing img output_path blur_strength detail min_area
  = match take 2 (shape img) with
    | [h; w] =>
        img' ← handle_alpha img;
        cs ← preprocess img' blur_strength;
        bg ← background_hex img';
        ps ← filtered_regions img' h w detail min_area cs;
        Ok (document output_path h w bg ps)
    | _ => Raise ValueError
    end.
Proof.
  unfold build_drawing.
  destruct (take 2 (shape img)) as [|h [|w [|? ?]]]; try reflexivity.
  destruct (handle_alpha img) as [img'|e]; simpl; [|done].
  destruct (preprocess img' blur_strength) as [cs|e]; simpl; [|done].
  destruct (background_hex img') as [bg|e]; simpl; [|done].
  by rewrite trace_contours_filtered.
Qed.

Lemma build_drawing_Ok (img : ndarray) (output_path : string)
    (blur_strength detail : Q) (min_area : Z) (dwg : Drawing) :
  build_drawing img output_path blur_strength detail min_area = Ok dwg <->
  exists (h w : nat) (img' : ndarray) (cs : list Contour) (bg : string)
         (ps : list Element),
    take 2 (shape img) = [h; w] /\
    handle_alpha img = Ok img' /\
    preprocess img' blur_strength = Ok cs /\
    background_hex img' = Ok bg /\
    filtered_regions img' h w detail min_area cs = Ok ps /\
    dwg = document output_path h w bg ps.
Proof.
  rewrite build_drawing_unfold. split.
  - destruct (take 2 (shape img)) as [|h [|w [|? ?]]]; try discriminate.
    destruct (handle_alpha img) as [img'|e]; simpl; [|done].
    destruct (preprocess img' blur_strength) as [cs|e] eqn:Hcs; simpl; [|done].
    destruct (background_hex img') as [bg|e] eqn:Hbg; simpl; [|done].
    destruct (filtered_regions img' h w detail min_area cs) as [ps|e] eqn:Hps;
      simpl; [|done].
    intros [= <-]. by exists h, w, img', cs, bg, ps.
  - intros (h & w & img' & cs & bg & ps & -> & -> & Hcs & Hbg & Hps & ->).
    simpl. rewrite Hcs. simpl. rewrite Hbg. simpl. by rewrite Hps.
Qed.

Lemma background_hex_Ok (img : ndarray) (bg : string) :
  wf_ndarray img -> background_hex img = Ok bg ->
  exists (b g r : Z) (rest : list Z),
    getitem2 img 0 0 = Ok (b :: g :: r :: rest) /\
    bg = "#" +:+ format_02x r +:+ format_02x g +:+ format_02x b /\
    is_rrggbb bg r g b = true.
Proof.
  intros Hwf. unfold background_hex.
  destruct (getitem2 img 0 0) as [px|e] eqn:Hpx; simpl; [|done].
  destruct px as [|b [|g [|r rest]]]; try discriminate.
  simpl. intros [= <-]. exists b, g, r, rest. split; [done|]. split; [done|].
  destruct img as [h w a|h w c a].
  { simpl in Hpx. destruct (np_index h 0); simpl in Hpx; [|done].
    by destruct (np_index w 0). }
  destruct (getitem2_Ok h w c a 0 0 _ Hwf Hpx) as [_ Hu].
  apply Forall_cons in Hu as [Hb Hu]. apply Forall_cons in Hu as [Hg Hu].
  apply Forall_cons in Hu as [Hr _]. by apply rrggbb_format.
Qed.

Lemma background_hex_defined (h w c : nat) (a : list (list (list Z))) :
  wf_ndarray (Array3 h w c a) -> (0 < h)%nat -> (0 < w)%nat -> (3 <= c)%nat ->
  exists bg : string, background_hex (Array3 h w c a) = Ok bg.
Proof.
  intros Hwf Hh Hw Hc.
  destruct (getitem2_in_range h w c a 0 0 Hwf) as (px & Hpx & _ & Hlen & _);
    [lia..|].
  unfold background_hex. rewrite Hpx. simpl.
  destruct px as [|b [|g [|r rest]]]; simpl in Hlen; try lia.
  simpl. eauto.
Qed.

Lemma region_colour (img : ndarray) (h w : nat) (detail : Q) (c : Contour)
    (e : Element) :
  wf_ndarray img -> region img h w detail c = Ok e ->
  exists (fill : string) (r g b : Z),
    e = path (svg_path_d (approxPolyDP c (detail * arcLength c true)%Q true))
          fill "none" /\
    is_rrggbb fill r g b = true.
Proof.
  intros Hwf (_ & cx & cy & b & g & r & _ & Hpx & ->)%region_Ok.
  exists ("#" +:+ format_02x r +:+ format_02x g +:+ format_02x b), r, g, b.
  split; [done|].
  unfold sample_pixel in Hpx. destruct img as [h' w' a|h' w' c' a].
  { simpl in Hpx. destruct (np_index h' _); simpl in Hpx; [|done].
    by destruct (np_index w' _). }
  destruct (getitem2_Ok h' w' c' a _ _ _ Hwf Hpx) as [_ Hu].
  apply Forall_cons in Hu as [Hb Hu]. apply Forall_cons in Hu as [Hg Hu].
  apply Forall_cons in Hu as [Hr _]. by apply rrggbb_format.
Qed.

(** C5.  The first shape of the document is a rectangle from (0, 0) over
    the whole [w] x [h] canvas whose fill is the [#rrggbb] rendering of the
    top-left pixel of the loaded image, and it is followed by one path per
    region: [M x,y] for the first simplified point, [L x,y] for each
    further one, a closing [Z], a [#rrggbb] fill and no stroke. *)
Theorem document_layout (img : ndarray) (output_path : string)
    (blur_strength detail : Q) (min_area : Z) (dwg : Drawing) :
  wf_ndarray img ->
  build_drawing img output_path blur_strength detail min_area = Ok dwg ->
  exists (h w : nat) (img' : ndarray) (b g r : Z) (rest : list Z)
         (bg : string) (cs : list Contour) (ps : list Element),
    take 2 (shape img) = [h; w] /\
    handle_alpha img = Ok img' /\
    getitem2 img' 0 0 = Ok (b :: g :: r :: rest) /\
    is_rrggbb bg r g b = true /\
    elements dwg = rect (0, 0) (Z.of_nat w, Z.of_nat h) bg :: ps /\
    preprocess img' blur_strength = Ok cs /\
    Forall2 (fun c e =>
        exists (fill : string) (r' g' b' : Z),
          e = path (svg_path_d
                      (approxPolyDP c (detail * arcLength c true)%Q true))
                fill "none" /\
          is_rrggbb fill r' g' b' = true)
      (filter (fun c => qualifies min_area c = true) cs) ps.
Proof.
  intros Hwf Hbuild.
  apply build_drawing_Ok in Hbuild
    as (h & w & img' & cs & bg & ps
        & Hshape & Halpha & Hcs & Hbg & Hps & ->).
  pose proof (handle_alpha_wf img img' Hwf Halpha) as Hwf'.
  destruct (background_hex_Ok img' bg Hwf' Hbg)
    as (b & g & r & rest & Hpx & _ & Hhex).
  exists h, w, img', b, g, r, rest, bg, cs, ps.
  repeat split; try done.
  apply collect_Forall2 in Hps.
  eapply Forall2_impl; [exact Hps|].
  intros c e Hreg. by apply (region_colour img' h w detail).
Qed.

End Document.

Section Run.
Context `{Cv2} `{Svgwrite}.
Variables (input_path output_path : string) (blur_strength detail : Q)
          (min_area : Z).

Lemma build_drawing_filename (img : ndarray) (dwg : Drawing) :
  build_drawing img output_path blur_strength detail min_area = Ok dwg ->
  filename dwg = output_path.
Proof.
  intros Hbuild.
  by apply build_drawing_Ok in Hbuild
    as (? & ? & ? & ? & ? & ? & _ & _ & _ & _ & _ & ->).
Qed.

Lemma run_Ok (σ σ' : World) :
  precise_image_to_svg input_path output_path blur_strength detail min_area σ
  = (Ok tt, σ') <->
  exists (img : ndarray) (dwg : Drawing),
    imread σ input_path = Some img /\
    build_drawing img output_path blur_strength detail min_area = Ok dwg /\
    (output_path ∉ denied σ) /\
    σ' = after_save dwg σ.
Proof.
  unfold precise_image_to_svg. split.
  - destruct (imread σ input_path) as [img|]; [|done].
    destruct (build_drawing img _ _ _ _) as [dwg|e] eqn:Hb; [|done].
    pose proof (build_drawing_filename img dwg Hb) as Hname.
    unfold save. rewrite Hname. case_decide; [done|].
    intros [= <-]. exists img, dwg. repeat split; try done.
    unfold after_save. by rewrite Hname.
  - intros (img & dwg & -> & Hb & Hw & ->). rewrite Hb.
    pose proof (build_drawing_filename img dwg Hb) as Hname.
    unfold save, after_save. rewrite Hname. by rewrite decide_False.
Qed.

Lemma run_depends_on_input (σ1 σ2 : World) :
  files σ1 !! input_path = files σ2 !! input_path ->
  (output_path ∈ denied σ1 <-> output_path ∈ denied σ2) ->
  (precise_image_to_svg input_path output_path blur_strength detail
     min_area σ1).1
  = (precise_image_to_svg input_path output_path blur_strength detail
       min_area σ2).1
  /\ ((precise_image_to_svg input_path output_path blur_strength detail
         min_area σ1).1 = Ok tt ->
      exists text : string,
        files (precise_image_to_svg input_path output_path blur_strength
                 detail min_area σ1).2 !! output_path = Some text /\
        files (precise_image_to_svg input_path output_path blur_strength
                 detail min_area σ2).2 !! output_path = Some text).
Proof.
  intros Hin Hden. unfold precise_image_to_svg, imread. rewrite Hin.
  destruct (files σ2 !! input_path ≫= imdecode) as [img|]; simpl; [|done].
  destruct (build_drawing img _ _ _ _) as [dwg|e] eqn:Hb; simpl; [|done].
  pose proof (build_drawing_filename img dwg Hb) as Hname.
  unfold save. rewrite Hname.
  destruct (decide (output_path ∈ denied σ1)) as [H1|H1];
    destruct (decide (output_path ∈ denied σ2)) as [H2|H2]; simpl;
    try tauto; [done|].
  split; [done|]. intros _. exists (tostring dwg).
  by rewrite !lookup_insert_eq.
Qed.

Lemma run_keeps_other_files (σ : World) (p : string) :
  p <> output_path ->
  files (precise_image_to_svg input_path output_path blur_strength detail
           min_area σ).2 !! p = files σ !! p.
Proof.
  intros Hp. unfold precise_image_to_svg.
  destruct (imread σ input_path) as [img|]; [|done].
  destruct (build_drawing img _ _ _ _) as [dwg|e] eqn:Hb; [|done].
  pose proof (build_drawing_filename img dwg Hb) as Hname.
  unfold save. rewrite Hname. case_decide; [done|].
  simpl. by rewrite lookup_insert_ne.
Qed.

Lemma run_keeps_denied (σ : World) :
  denied (precise_image_to_svg input_path output_path blur_strength detail
            min_area σ).2 = denied σ.
Proof.
  unfold precise_image_to_svg.
  destruct (imread σ input_path) as [img|]; [|done].
  destruct (build_drawing img _ _ _ _) as [dwg|e]; [|done].
  unfold save. by case_decide.
Qed.

(** C7.  The outcome of a run and the text it writes are a function of
    the input file and the settings alone: two runs that read the same
    image bytes under the same [blur_strength], [detail] and [min_area]
    end alike and leave byte-identical documents, whatever else the two
    worlds hold; in particular running the conversion a second time
    rewrites the same document. *)
Theorem conversion_deterministic (σ1 σ2 : World) :
  (files σ1 !! input_path = files σ2 !! input_path ->
   (output_path ∈ denied σ1 <-> output_path ∈ denied σ2) ->
   (precise_image_to_svg input_path output_path blur_strength detail
      min_area σ1).1
   = (precise_image_to_svg input_path output_path blur_strength detail
        min_area σ2).1
   /\ ((precise_image_to_svg input_path output_path blur_strength detail
          min_area σ1).1 = Ok tt ->
       exists text : string,
         files (precise_image_to_svg input_path output_path blur_strength
                  detail min_area σ1).2 !! output_path = Some text /\
         files (precise_image_to_svg input_path output_path blur_strength
                  detail min_area σ2).2 !! output_path = Some text))
  /\ (input_path <> output_path ->
      let first :=
        precise_image_to_svg input_path output_path blur_strength detail
          min_area σ1 in
      let second :=
        precise_image_to_svg input_path output_path blur_strength detail
          min_area first.2 in
      second.1 = first.1 /\
      (first.1 = Ok tt ->
       exists text : string,
         files first.2 !! output_path = Some text /\
         files second.2 !! output_path = Some text)).
Proof.
  split; [apply run_depends_on_input|].
  intros Hne first second.
  destruct (run_depends_on_input first.2 σ1) as [Hres Hfile].
  - by apply run_keeps_other_files.
  - unfold first. by rewrite run_keeps_denied.
  - subst first second. simpl in *. split; [done|].
    intros Hok. rewrite Hok in Hres.
    destruct (Hfile Hres) as (text & Hsecond & Hfirst).
    by exists text.
Qed.

Lemma handle_alpha_channels (h w c : nat) (a : list (list (list Z))) :
  exists (c' : nat) (a' : list (list (list Z))),
    handle_alpha (Array3 h w c a) = Ok (Array3 h w c' a') /\
    (c = 4%nat -> c' = 3%nat) /\ (c <> 4%nat -> c' = c).
Proof.
  destruct (decide (c = 4%nat)) as [->|Hc].
  - eexists 3%nat, _. by rewrite handle_alpha_rgba.
  - exists c, a. by rewrite handle_alpha_other.
Qed.

Lemma nothing_qualifies (cs : list Contour) :
  Forall (fun c => (contourArea c < inject_Z min_area)%Q) cs ->
  filter (fun c => qualifies min_area c = true) cs = [].
Proof.
  induction 1 as [|c cs Hc _ IH]; [done|].
  rewrite filter_cons, IH. rewrite decide_False; [done|].
  rewrite qualifies_le. by apply Qlt_not_le.
Qed.

(** C6.  When no contour qualifies (there is none, or each has an area
    below [min_area]) the run does not fail: it returns normally and the
    output path holds the serialised document made of the background
    rectangle alone. *)
Theorem empty_result_still_written (σ : World) (bytes : string)
    (h w c : nat) (a : list (list (list Z))) (img' : ndarray)
    (cs : list Contour) :
  files σ !! input_path = Some bytes ->
  imdecode bytes = Some (Array3 h w c a) ->
  wf_ndarray (Array3 h w c a) -> (0 < h)%nat -> (0 < w)%nat -> (3 <= c)%nat ->
  output_path ∉ denied σ ->
  handle_alpha (Array3 h w c a) = Ok img' ->
  preprocess img' blur_strength = Ok cs ->
  Forall (fun c => (contourArea c < inject_Z min_area)%Q) cs ->
  exists bg : string,
    background_hex img' = Ok bg /\
    build_drawing (Array3 h w c a) output_path blur_strength detail min_area
    = Ok (document output_path h w bg []) /\
    elements (document output_path h w bg [])
    = [rect (0, 0) (Z.of_nat w, Z.of_nat h) bg] /\
    precise_image_to_svg input_path output_path blur_strength detail
      min_area σ
    = (Ok tt, after_save (document output_path h w bg []) σ) /\
    files (after_save (document output_path h w bg []) σ) !! output_path
    = Some (tostring (document output_path h w bg [])).
Proof.
  intros Hfile Hdec Hwf Hh Hw Hc Hden Halpha Hcs Hsmall.
  destruct (handle_alpha_channels h w c a) as (c' & a' & Ha & H4 & Hn4).
  rewrite Ha in Halpha. injection Halpha as <-.
  pose proof (handle_alpha_wf _ _ Hwf Ha) as Hwf'.
  destruct (background_hex_defined h w c' a' Hwf' Hh Hw) as [bg Hbg].
  { destruct (decide (c = 4%nat)) as [Hc4|Hc4];
      [rewrite (H4 Hc4)|rewrite (Hn4 Hc4)]; lia. }
  exists bg. split; [done|].
  assert (build_drawing (Array3 h w c a) output_path blur_strength detail
            min_area = Ok (document output_path h w bg [])) as Hbuild.
  { apply build_drawing_Ok.
    exists h, w, (Array3 h w c' a'), cs, bg, [].
    repeat split; try done.
    unfold filtered_regions. by rewrite nothing_qualifies. }
  split; [done|]. split; [done|]. split.
  - apply run_Ok. exists (Array3 h w c a), (document output_path h w bg []).
    repeat split; try done. unfold imread. by rewrite Hfile.
  - unfold after_save. simpl. by rewrite lookup_insert_eq.
Qed.

(** C9.  A decoded image that is a two-dimensional (single-channel) grid
    makes [img.shape[2]] raise [IndexError] right after loading: the run
    ends with that exception, not with the loader's own error, and the
    world, hence every file, is left as it was.  Conversely a run that
    completes read an image with at least three channels. *)
Theorem single_channel_index_error (σ : World) :
  (forall (bytes : string) (h w : nat) (a : list (list Z)),
      files σ !! input_path = Some bytes ->
      imdecode bytes = Some (Array2 h w a) ->
      precise_image_to_svg input_path output_path blur_strength detail
        min_area σ
      = (Raise IndexError, σ))
  /\ (forall (img : ndarray) (σ' : World),
        imread σ input_path = Some img ->
        wf_ndarray img ->
        precise_image_to_svg input_path output_path blur_strength detail
          min_area σ
        = (Ok tt, σ') ->
        exists (h w c : nat) (a : list (list (list Z))),
          img = Array3 h w c a /\ (3 <= c)%nat).
Proof.
  split.
  - intros bytes h w a Hfile Hdec.
    unfold precise_image_to_svg, imread. rewrite Hfile. simpl. rewrite Hdec.
    reflexivity.
  - intros img σ' Hread Hwf (img0 & dwg & Hread0 & Hbuild & _ & _)%run_Ok.
    rewrite Hread in Hread0. injection Hread0 as <-.
    apply build_drawing_Ok in Hbuild
      as (h & w & img' & cs & bg & ps & Hshape & Halpha & _ & Hbg & _ & _).
    destruct img as [h0 w0 a|h0 w0 c a]; [discriminate Halpha|].
    exists h0, w0, c, a. split; [done|].
    destruct (handle_alpha_channels h0 w0 c a) as (c' & a' & Ha & H4 & Hn4).
    rewrite Ha in Halpha. injection Halpha as <-.
    pose proof (handle_alpha_wf _ _ Hwf Ha) as Hwf'.
    destruct (background_hex_Ok _ _ Hwf' Hbg) as (b & g & r & rest & Hpx & _).
    destruct (getitem2_Ok _ _ _ _ _ _ _ Hwf' Hpx) as [Hlen _].
    destruct (decide (c = 4%nat)) as [Hc4|Hc4]; [lia|].
    rewrite (Hn4 Hc4) in Hlen. simpl in Hlen. lia.
Qed.

(** C10.  The background colour is read after the alpha branch: for a
    four-channel image whose pixel (0, 0) has alpha 0 the rectangle is
    filled with [#ffffff], whatever colour samples that pixel stores. *)
Theorem transparent_corner_background (h w : nat)
    (a : list (list (list Z))) (b g r : Z) :
  wf_ndarray (Array3 h w 4 a) ->
  at2 a 0 0 = Some [b; g; r; 0] ->
  (exists img' : ndarray,
      handle_alpha (Array3 h w 4 a) = Ok img' /\
      background_hex img' = Ok "#ffffff")
  /\ (forall dwg : Drawing,
        build_drawing (Array3 h w 4 a) output_path blur_strength detail
          min_area = Ok dwg ->
        head (elements dwg)
        = Some (rect (0, 0) (Z.of_nat w, Z.of_nat h) "#ffffff"))
  /\ (forall (σ σ' : World) (bytes : string),
        files σ !! input_path = Some bytes ->
        imdecode bytes = Some (Array3 h w 4 a) ->
        precise_image_to_svg input_path output_path blur_strength detail
          min_area σ = (Ok tt, σ') ->
        exists dwg : Drawing,
          files σ' !! output_path = Some (tostring dwg) /\
          head (elements dwg)
          = Some (rect (0, 0) (Z.of_nat w, Z.of_nat h) "#ffffff")).
Proof.
  intros Hwf Hpx.
  assert (background_hex (Array3 h w 3 (map2 composite a)) = Ok "#ffffff")
    as Hbg.
  { assert ((0 < h)%nat /\ (0 < w)%nat) as [Hh Hw].
    { destruct Hwf as [Hh Hrows]. unfold at2 in Hpx.
      destruct (a !! 0%nat) as [row|] eqn:Hrow; [|done]. simpl in Hpx.
      pose proof (Forall_lookup_1 _ _ _ _ Hrows Hrow) as [Hw _].
      apply lookup_lt_Some in Hrow, Hpx. lia. }
    unfold background_hex, getitem2.
    rewrite !np_index_in_range by lia. simpl.
    change (Z.to_nat 0) with 0%nat.
    rewrite at2_fmap, Hpx. reflexivity. }
  assert (forall dwg : Drawing,
    build_drawing (Array3 h w 4 a) output_path blur_strength detail min_area
    = Ok dwg ->
    head (elements dwg)
    = Some (rect (0, 0) (Z.of_nat w, Z.of_nat h) "#ffffff")) as Hhead.
  { intros dwg Hbuild.
    apply build_drawing_Ok in Hbuild
      as (h' & w' & img' & cs & bg & ps & Hshape & Halpha & _ & Hbg' & _ & ->).
    rewrite handle_alpha_rgba in Halpha. injection Halpha as <-.
    rewrite Hbg in Hbg'. injection Hbg' as <-.
    simpl in Hshape. by injection Hshape as <- <-. }
  split; [|split].
  - eexists. split; [apply handle_alpha_rgba|exact Hbg].
  - exact Hhead.
  - intros σ σ' bytes Hfile Hdec (img & dwg & Hread & Hbuild & _ & ->)%run_Ok.
    unfold imread in Hread. rewrite Hfile in Hread. simpl in Hread.
    rewrite Hdec in Hread. injection Hread as <-.
    exists dwg. split; [|by apply Hhead].
    unfold after_save. simpl.
    rewrite (build_drawing_filename _ _ Hbuild). by rewrite lookup_insert_eq.
Qed.

End Run.

Section AdaptiveThreshold.
Context `{Cv2}.

Lemma adaptiveThreshold_at (src : list (list Z)) (maxValue : Z)
    (method : AdaptiveMethod) (ttype : ThresholdType) (blockSize C : Z)
    (thr : list (list Z)) (y x : nat) (v : Z) :
  adaptiveThreshold src maxValue method ttype blockSize C = Ok thr ->
  at2 src y x = Some v ->
  at2 thr y x
  = Some (threshold_sample ttype maxValue
            (saturate_uint8 (neighbourhood_mean method blockSize src y x) - C)
            v).
Proof.
  unfold adaptiveThreshold.
  destruct ((blockSize mod 2 =? 1) && (1 <? blockSize)); [|done].
  intros [= <-]. unfold at2. rewrite list_lookup_imap.
  destruct (src !! y) as [row|]; simpl; [|done].
  rewrite list_lookup_imap. by intros ->.
Qed.

(** Rounding keeps a value on its side of every integer, and moves it by
    at most one half. *)
Lemma cvRound_ge (q : Q) (k : Z) : (inject_Z k <= q)%Q -> k <= cvRound q.
Proof.
  unfold Qle, cvRound. destruct q as [n d]. simpl. intros Hk.
  pose proof (Z.div_mod n (Z.pos d) ltac:(lia)) as Hdm.
  pose proof (Z.mod_pos_bound n (Z.pos d) ltac:(lia)) as Hr.
  assert (k <= n / Z.pos d) by nia.
  repeat case_match; lia.
Qed.

Lemma cvRound_le (q : Q) (k : Z) : (q <= inject_Z k)%Q -> cvRound q <= k.
Proof.
  unfold Qle, cvRound. destruct q as [n d]. simpl. intros Hk.
  pose proof (Z.div_mod n (Z.pos d) ltac:(lia)) as Hdm.
  pose proof (Z.mod_pos_bound n (Z.pos d) ltac:(lia)) as Hr.
  assert (n / Z.pos d <= k) by nia.
  destruct (Z.ltb_spec (2 * (n mod Z.pos d)) (Z.pos d)); [lia|].
  assert (n / Z.pos d < k) by nia.
  repeat case_match; lia.
Qed.

Lemma cvRound_half (q : Q) (k : Z) :
  k <= cvRound q -> (inject_Z k - (1 # 2) <= q)%Q.
Proof.
  unfold Qle, cvRound. destruct q as [n d]. simpl.
  pose proof (Z.div_mod n (Z.pos d) ltac:(lia)) as Hdm.
  pose proof (Z.mod_pos_bound n (Z.pos d) ltac:(lia)) as Hr.
  destruct (Z.ltb_spec (2 * (n mod Z.pos d)) (Z.pos d)); intros Hk.
  - nia.
  - assert (k <= n / Z.pos d + 1) by (repeat case_match; lia). nia.
Qed.

Lemma binarize_rule (gray thr : list (list Z)) (y x : nat) (v : Z) :
  binarize gray = Ok thr -> at2 gray y x = Some v ->
  let mean :=
    saturate_uint8
      (neighbourhood_mean ADAPTIVE_THRESH_GAUSSIAN_C 15 gray y x) in
  (8 <= mean - v -> at2 thr y x = Some 255) /\
  (mean - v < 8 -> at2 thr y x = Some 0).
Proof.
  intros Hthr Hv mean. unfold binarize in Hthr.
  rewrite (adaptiveThreshold_at _ _ _ _ _ _ _ _ _ _ Hthr Hv).
  fold mean. unfold threshold_sample.
  split; intros Hm; destruct (Z.ltb_spec (mean - 8) v); (done || lia).
Qed.


End AdaptiveThreshold.


Section Simplification.
Import SpecDP.
Variables (eps : Q).

Lemma farthest_None (a b : Point) (mid : list Point) :
  farthest a b mid = None -> mid = [].
Proof.
  destruct mid as [|p mid]; [done|]. simpl.
  destruct (farthest a b mid) as [[i q]|]; [|done].
  by destruct (Qltb _ _).
Qed.

(** The point picked by [farthest] sits at the reported position, the
    points before it deviate strictly less and no point after it
    deviates more. *)
Lemma farthest_Some (a b : Point) (mid : list Point) (i : nat) (p : Point) :
  farthest a b mid = Some (i, p) ->
  mid !! i = Some p /\
  Forall (fun q => Qltb (deviation2 a b q) (deviation2 a b p) = true)
    (take i mid) /\
  Forall (fun q => Qltb (deviation2 a b p) (deviation2 a b q) = false)
    (drop (S i) mid).
Proof.
  revert i p. induction mid as [|x mid IH]; intros i p; [done|].
  simpl. destruct (farthest a b mid) as [[j q]|] eqn:Hmid.
  - destruct (IH j q eq_refl) as (Hq & Hbefore & Hafter).
    destruct (Qltb (deviation2 a b x) (deviation2 a b q)) eqn:Hlt.
    + intros [= <- <-]. simpl. split; [done|]. split; [|done].
      by constructor.
    + intros [= <- <-]. simpl. split; [done|]. split; [constructor|].
      rewrite drop_0. apply Qltb_ge in Hlt.
      rewrite <- (take_drop_middle mid j q Hq).
      apply Forall_app. split; [|constructor].
      * eapply Forall_impl; [exact Hbefore|]. intros y Hy. simpl in Hy.
        apply Qltb_ge. apply Qltb_lt in Hy.
        eapply Qle_trans; [apply Qlt_le_weak; exact Hy|exact Hlt].
      * by apply Qltb_ge.
      * eapply Forall_impl; [exact Hafter|]. intros y Hy. simpl in Hy.
        apply Qltb_ge. apply Qltb_ge in Hy.
        eapply Qle_trans; [exact Hy|exact Hlt].
  - apply farthest_None in Hmid as ->.
    intros [= <- <-]. simpl. repeat split; constructor.
Qed.

(** Conversely those three facts determine the answer. *)
Lemma farthest_middle (a b : Point) (before after : list Point) (p : Point) :
  Forall (fun q => Qltb (deviation2 a b q) (deviation2 a b p) = true) before ->
  Forall (fun q => Qltb (deviation2 a b p) (deviation2 a b q) = false) after ->
  farthest a b (before ++ p :: after) = Some (length before, p).
Proof.
  intros Hbefore Hafter. induction Hbefore as [|x before Hx _ IH]; simpl.
  - destruct (farthest a b after) as [[j q]|] eqn:Hq; [|done].
    apply farthest_Some in Hq as (Hq & _ & _).
    apply list_elem_of_lookup_2 in Hq.
    rewrite Forall_forall in Hafter. by rewrite (Hafter q Hq).
  - by rewrite IH, Hx.
Qed.

Lemma drop_after_middle {A} (l1 : list A) (x : A) (l2 : list A) :
  drop (S (length l1)) (l1 ++ x :: l2) = l2.
Proof.
  rewrite cons_middle, app_assoc. apply drop_app_length'.
  rewrite length_app. simpl. lia.
Qed.

Lemma dp_fuel_kept (P : Point -> Prop) (k : nat) (a b : Point)
    (mid : list Point) :
  Forall P mid -> Forall P (dp_fuel k eps a mid b).
Proof.
  revert a b mid. induction k as [|k IH]; intros a b mid Hmid; [constructor|].
  simpl. destruct (farthest a b mid) as [[i p]|] eqn:Hf; [|constructor].
  destruct (exceeds eps a b p); [|constructor].
  apply farthest_Some in Hf as (Hp & _ & _).
  apply Forall_app. split.
  - apply IH. by apply Forall_take.
  - constructor.
    + rewrite Forall_lookup in Hmid. by apply (Hmid i).
    + apply IH. by apply Forall_drop.
Qed.

(** The fuel [length mid] never runs out: any larger amount gives the same
    result. *)
Lemma dp_fuel_enough (k k' : nat) (a b : Point) (mid : list Point) :
  (length mid <= k)%nat -> (length mid <= k')%nat ->
  dp_fuel k eps a mid b = dp_fuel k' eps a mid b.
Proof.
  revert k' a b mid. induction k as [|k IH]; intros k' a b mid Hk Hk'.
  - destruct mid; [|simpl in Hk; lia]. by destruct k'.
  - destruct k' as [|k'].
    { destruct mid; [done|simpl in Hk'; lia]. }
    simpl. destruct (farthest a b mid) as [[i p]|] eqn:Hf; [|done].
    destruct (exceeds eps a b p); [|done].
    apply farthest_Some in Hf as (Hp & _ & _).
    apply lookup_lt_Some in Hp.
    rewrite (IH k' a p (take i mid)), (IH k' p b (drop (S i) mid));
      rewrite ?length_take, ?length_drop; (done || lia).
Qed.

(** The recursion equation of Douglas-Peucker. *)
Lemma dp_unfold (a b : Point) (mid : list Point) :
  dp eps a mid b
  = match farthest a b mid with
    | Some (i, p) =>
        if exceeds eps a b p then
          dp eps a (take i mid) p ++ p :: dp eps p (drop (S i) mid) b
        else []
    | None => []
    end.
Proof.
  unfold dp. destruct mid as [|x mid]; [done|].
  change (length (x :: mid)) with (S (length mid)).
  cbn [dp_fuel]. destruct (farthest a b (x :: mid)) as [[i p]|] eqn:Hf; [|done].
  destruct (exceeds eps a b p); [|done].
  apply farthest_Some in Hf as (Hp & _ & _).
  apply lookup_lt_Some in Hp. simpl in Hp.
  f_equal; [|f_equal]; apply dp_fuel_enough;
    rewrite ?length_take, ?length_drop; simpl; lia.
Qed.

Lemma dp_fuel_idempotent (k k' : nat) (a b : Point) (mid : list Point) :
  (length mid <= k)%nat ->
  (length (dp_fuel k eps a mid b) <= k')%nat ->
  dp_fuel k' eps a (dp_fuel k eps a mid b) b = dp_fuel k eps a mid b.
Proof.
  revert k' a b mid. induction k as [|k IH]; intros k' a b mid Hk Hk'.
  - simpl. by destruct k'.
  - simpl in *. destruct (farthest a b mid) as [[i p]|] eqn:Hf;
      [|by destruct k'].
    destruct (exceeds eps a b p) eqn:Hex; [|by destruct k'].
    apply farthest_Some in Hf as (Hp & Hbefore & Hafter).
    apply lookup_lt_Some in Hp.
    rewrite length_app in Hk'. simpl in Hk'.
    destruct k' as [|k']; [lia|].
    cbn [dp_fuel]. rewrite farthest_middle.
    + rewrite Hex, take_app_length, drop_after_middle.
      rewrite !IH; rewrite ?length_take, ?length_drop; (done || lia).
    + by apply dp_fuel_kept.
    + by apply dp_fuel_kept.
Qed.

Lemma dp_idempotent (a b : Point) (mid : list Point) :
  dp eps a (dp eps a mid b) b = dp eps a mid b.
Proof. unfold dp. by apply dp_fuel_idempotent. Qed.

Lemma simplify_idempotent (contour : list Point) :
  simplify eps (simplify eps contour) = simplify eps contour.
Proof.
  destruct contour as [|first [|second rest]]; [done..|].
  unfold simplify at 2 3.
  set (final := List.last (second :: rest) first).
  set (kept := dp eps first (removelast (second :: rest)) final).
  assert (simplify eps (first :: kept ++ [final])
          = first :: dp eps first kept final ++ [final]) as ->.
  { unfold simplify.
    destruct (kept ++ [final]) as [|x l] eqn:Hl.
    { by destruct kept. }
    rewrite <- Hl. by rewrite last_last, removelast_last. }
  unfold kept. by rewrite dp_idempotent.
Qed.

End Simplification.


Section RunEffects.
Context `{Cv2} `{Svgwrite}.
Variables (input_path output_path : string) (blur_strength detail : Q)
          (min_area : Z).


(** Writing over the input: when the output path is the input path, a
    successful run replaces the image by the document, and if that text is
    not itself a decodable image the next run on the same path fails with
    [FileNotFoundError]. *)
Theorem output_over_input (σ σ' : World) :
  output_path = input_path ->
  precise_image_to_svg input_path output_path blur_strength detail min_area σ
  = (Ok tt, σ') ->
  exists dwg : Drawing,
    files σ' !! input_path = Some (tostring dwg) /\
    (imdecode (tostring dwg) = None ->
     precise_image_to_svg input_path output_path blur_strength detail
       min_area σ'
     = (Raise FileNotFoundError, σ')).
Proof.
  intros Heq (img & dwg & _ & Hb & _ & ->)%run_Ok.
  pose proof (build_drawing_filename _ _ _ _ img dwg Hb) as Hname.
  exists dwg. unfold after_save. rewrite Hname, Heq. simpl.
  rewrite lookup_insert_eq. split; [done|].
  intros Hdec. unfold precise_image_to_svg, imread. simpl.
  by rewrite lookup_insert_eq; simpl; rewrite Hdec.
Qed.

End RunEffects.

Section AreaThreshold.
Context `{Cv2}.
Variables (img : ndarray) (h w : nat) (detail : Q).

Lemma collect_sublist {A B} (f : A -> result B) (l' l : list A)
    (ys : list B) :
  sublist l' l -> collect f l = Ok ys ->
  exists ys' : list B, collect f l' = Ok ys' /\ sublist ys' ys.
Proof.
  intros Hsub. revert ys.
  induction Hsub as [|x l1 l2 _ IH|x l1 l2 _ IH]; intros ys; simpl.
  - intros [= <-]. by exists [].
  - destruct (f x) as [y|e]; simpl; [|done].
    destruct (collect f l2) as [ys2|e]; simpl; [|done].
    intros [= <-]. destruct (IH ys2 eq_refl) as (ys1 & -> & Hs). simpl.
    exists (y :: ys1). split; [done|]. by constructor.
  - destruct (f x) as [y|e]; simpl; [|done].
    destruct (collect f l2) as [ys2|e]; simpl; [|done].
    intros [= <-]. destruct (IH ys2 eq_refl) as (ys1 & Hc & Hs).
    exists ys1. split; [done|]. by constructor.
Qed.

Lemma filter_stricter_sublist {A} (P Q : A -> Prop)
    `{!forall x, Decision (P x)} `{!forall x, Decision (Q x)} (l : list A) :
  (forall x, P x -> Q x) -> sublist (filter P l) (filter Q l).
Proof.
  intros HPQ. induction l as [|x l IH]; [constructor|].
  rewrite !filter_cons.
  destruct (decide (P x)) as [HP|HP].
  - rewrite decide_True by auto. by constructor.
  - destruct (decide (Q x)); [by constructor|done].
Qed.

Lemma qualifies_mono (m m' : Z) (c : Contour) :
  m <= m' -> qualifies m' c = true -> qualifies m c = true.
Proof.
  intros Hm. rewrite !qualifies_le. intros Hq.
  eapply Qle_trans; [|exact Hq]. by rewrite <- Zle_Qle.
Qed.

(** Raising [min_area] can only remove regions: if the loop succeeds with
    a threshold it also succeeds with every larger one, and the regions it
    then adds are a sub-sequence, in the same order, of those added
    before. *)
Theorem raising_min_area_only_removes (m m' : Z) (contours : list Contour)
    (dwg dwg1 : Drawing) :
  m <= m' ->
  trace_contours img h w detail m contours dwg = Ok dwg1 ->
  exists (dwg2 : Drawing) (ps1 ps2 : list Element),
    trace_contours img h w detail m' contours dwg = Ok dwg2 /\
    elements dwg1 = elements dwg ++ ps1 /\
    elements dwg2 = elements dwg ++ ps2 /\
    sublist ps2 ps1.
Proof.
  intros Hm (ps1 & Hps1 & ->)%trace_contours_Ok.
  unfold filtered_regions in Hps1.
  destruct (collect_sublist (region img h w detail)
              (filter (fun c => qualifies m' c = true) contours)
              (filter (fun c => qualifies m c = true) contours) ps1)
    as (ps2 & Hps2 & Hsub); [|exact Hps1|].
  { apply filter_stricter_sublist. intros c. by apply qualifies_mono. }
  exists (extend dwg ps2), ps1, ps2. repeat split; try done.
  apply trace_contours_Ok. by exists ps2.
Qed.

(** With areas that are never negative, a [min_area] of zero or less
    switches the filter off: every contour is turned into a region, and the
    loop adds exactly as many paths as there are contours. *)
Theorem nonpositive_min_area_keeps_all (min_area : Z)
    (contours : list Contour) (dwg : Drawing) :
  min_area <= 0 ->
  Forall (fun c => (0 <= contourArea c)%Q) contours ->
  trace_contours img h w detail min_area contours dwg
  = (ps ← collect (region img h w detail) contours; Ok (extend dwg ps))
  /\ (forall dwg' : Drawing,
        trace_contours img h w detail min_area contours dwg = Ok dwg' ->
        length (elements dwg')
        = (length (elements dwg) + length contours)%nat).
Proof.
  intros Hm Hpos.
  assert (filter (fun c => qualifies min_area c = true) contours = contours)
    as Hall.
  { induction Hpos as [|c cs Hc _ IH]; [done|].
    rewrite filter_cons, IH. rewrite decide_True; [done|].
    apply qualifies_le. eapply Qle_trans; [|exact Hc].
    change 0%Q with (inject_Z 0). by rewrite <- Zle_Qle. }
  assert (trace_contours img h w detail min_area contours dwg
          = (ps ← collect (region img h w detail) contours;
             Ok (extend dwg ps))) as Heq.
  { rewrite trace_contours_filtered. unfold filtered_regions.
    by rewrite Hall. }
  split; [exact Heq|]. intros dwg'. rewrite Heq.
  destruct (collect _ contours) as [ps|e] eqn:Hps; simpl; [|done].
  intros [= <-]. simpl. rewrite length_app. f_equal.
  apply collect_Forall2 in Hps. symmetry. by eapply Forall2_length.
Qed.

End AreaThreshold.

Section Colours.

(** The colour rendering loses nothing: two colours with samples in
    [0, 255] that are rendered to the same [#rrggbb] string are the same
    colour, channel by channel. *)
Theorem hex_colour_injective (r g b r' g' b' : Z) :
  is_uint8 r -> is_uint8 g -> is_uint8 b ->
  is_uint8 r' -> is_uint8 g' -> is_uint8 b' ->
  "#" +:+ format_02x r +:+ format_02x g +:+ format_02x b
  = "#" +:+ format_02x r' +:+ format_02x g' +:+ format_02x b' ->
  r = r' /\ g = g' /\ b = b'.
Proof.
  intros (r1 & r2 & -> & _ & _ & Hr)%format_02x_uint8
         (g1 & g2 & -> & _ & _ & Hg)%format_02x_uint8
         (b1 & b2 & -> & _ & _ & Hb)%format_02x_uint8
         (r1' & r2' & -> & _ & _ & Hr')%format_02x_uint8
         (g1' & g2' & -> & _ & _ & Hg')%format_02x_uint8
         (b1' & b2' & -> & _ & _ & Hb')%format_02x_uint8.
  simpl. intros [= -> -> -> -> -> ->]. lia.
Qed.

End Colours.

Section LoaderInvariants.

(** The alpha step is idempotent and keeps the frame: its result has the
    height and width of its input, is again a well-formed [uint8] image
    when the input was, and is returned unchanged when put through the
    step a second time. *)
Theorem loader_idempotent (img img' : ndarray) :
  handle_alpha img = Ok img' ->
  handle_alpha img' = Ok img'
  /\ take 2 (shape img') = take 2 (shape img)
  /\ (wf_ndarray img -> wf_ndarray img').
Proof.
  intros Ha. split; [|split].
  - destruct img as [h w a|h w c a]; [done|].
    destruct (decide (c = 4%nat)) as [->|Hc].
    + rewrite handle_alpha_rgba in Ha. injection Ha as <-.
      by apply handle_alpha_other.
    + rewrite handle_alpha_other in Ha by done. injection Ha as <-.
      by apply handle_alpha_other.
  - destruct img as [h w a|h w c a]; [done|].
    destruct (decide (c = 4%nat)) as [->|Hc].
    + rewrite handle_alpha_rgba in Ha. by injection Ha as <-.
    + rewrite handle_alpha_other in Ha by done. by injection Ha as <-.
  - intros Hwf. by eapply handle_alpha_wf.
Qed.

End LoaderInvariants.

Section PdfStrings.
Import Pdf.

Lemma prefix_app (p s : string) :
  String.prefix p s = true <-> exists t : string, s = p +:+ t.
Proof.
  revert s. induction p as [|c p IH]; intros s.
  - destruct s; simpl; (split; [eauto|done]).
  - destruct s as [|c' s]; simpl.
    + split; [done|intros [t [=]]].
    + destruct (ascii_dec c c') as [->|Hc].
      * rewrite IH. split; intros [t Ht]; exists t.
        -- by rewrite Ht.
        -- simpl in Ht. by injection Ht.
      * split; [done|]. intros [t Ht]. simpl in Ht. by injection Ht.
Qed.

Lemma contains_occurs (hay needle : string) :
  contains hay needle = true <-> occurs_in needle hay.
Proof.
  unfold occurs_in. split.
  - induction hay as [|c hay IH]; cbn [contains].
    + rewrite orb_false_r. intros [t Ht]%prefix_app. by exists EmptyString, t.
    + intros [[t Ht]%prefix_app|Hrec]%orb_prop.
      * by exists EmptyString, t.
      * destruct (IH Hrec) as (pre & post & ->).
        by exists (String c pre), post.
  - intros (pre & post & ->). induction pre as [|c pre IH].
    + assert (String.prefix needle (needle +:+ post) = true) as Hp
        by (apply prefix_app; eauto).
      revert Hp. generalize (needle +:+ post). intros hay Hp.
      change (EmptyString +:+ hay) with hay.
      destruct hay; cbn [contains]; by rewrite Hp.
    + cbn [contains String.append]. fold String.append.
      apply orb_true_intro. by right.
Qed.

Lemma string_drop_app (p t : string) :
  string_drop (String.length p) (p +:+ t) = t.
Proof. induction p as [|c p IH]; simpl; [by destruct t|exact IH]. Qed.

Lemma split_go_cons (sep : string) (k : nat) (s : string) :
  exists (piece : string) (rest : list string),
    split_go sep k s = piece :: rest.
Proof.
  revert k. induction s as [|c s IH]; intros k; cbn [split_go]; [eauto|].
  destruct k as [|k]; [|apply IH].
  destruct (String.prefix sep (String c s)); [eauto|].
  destruct (IH 0%nat) as (piece & rest & ->). eauto.
Qed.

Lemma join_with_cons (sep piece : string) (c : ascii) (rest : list string) :
  join_with sep (String c piece :: rest)
  = String c (join_with sep (piece :: rest)).
Proof. unfold join_with. simpl. by destruct rest. Qed.

Lemma join_with_empty_cons (sep piece : string) (rest : list string) :
  join_with sep (EmptyString :: piece :: rest)
  = sep +:+ join_with sep (piece :: rest).
Proof. reflexivity. Qed.

(** Joining the pieces with the separator gives back what was split. *)
Lemma join_split_go (sep : string) (k : nat) (s : string) :
  sep <> EmptyString ->
  join_with sep (split_go sep k s) = string_drop k s.
Proof.
  intros Hsep. revert k. induction s as [|c s IH]; intros k.
  - by destruct k.
  - cbn [split_go string_drop]. destruct k as [|k]; [|apply IH].
    destruct (String.prefix sep (String c s)) eqn:Hp.
    + apply prefix_app in Hp as [t Ht].
      destruct sep as [|c' sep']; [done|].
      cbn [String.append] in Ht. injection Ht as <- ->.
      destruct (split_go_cons (String c sep') (String.length sep')
                  (sep' +:+ t)) as (piece & rest & Hsplit).
      specialize (IH (String.length sep')). rewrite string_drop_app in IH.
      cbn [String.length]. rewrite Nat.sub_succ, Nat.sub_0_r, Hsplit.
      rewrite Hsplit in IH.
      rewrite join_with_empty_cons, IH. reflexivity.
    + destruct (split_go_cons sep 0 s) as (piece & rest & Hsplit).
      rewrite Hsplit, join_with_cons, <- Hsplit. by rewrite IH.
Qed.

End PdfStrings.

Section PdfDict.
Import Pdf.

Lemma dict_get_set (d : Dict) (k v k' : string) :
  dict_get (dict_set d k v) k'
  = if String.eqb k k' then Some v else dict_get d k'.
Proof.
  induction d as [|[k0 v0] d IH]; simpl.
  - done.
  - destruct (String.eqb_spec k0 k) as [->|Hk]; simpl.
    + by destruct (String.eqb_spec k k').
    + destruct (String.eqb_spec k0 k') as [->|Hk'].
      * destruct (String.eqb_spec k k'); [congruence|done].
      * exact IH.
Qed.

Lemma dict_set_fresh (d : Dict) (k v : string) :
  k ∉ d.*1 -> dict_set d k v = d ++ [(k, v)].
Proof.
  induction d as [|[k0 v0] d IH]; csimpl; [done|].
  intros Hk. apply not_elem_of_cons in Hk as [Hne Hk].
  destruct (String.eqb_spec k0 k); [congruence|]. by rewrite IH.
Qed.

Lemma dict_set_keys (d : Dict) (k v : string) :
  (dict_set d k v).*1 = if decide (k ∈ d.*1) then d.*1 else d.*1 ++ [k].
Proof.
  induction d as [|[k0 v0] d IH]; csimpl; [done|].
  destruct (String.eqb_spec k0 k) as [->|Hk]; csimpl.
  - rewrite decide_True; [done|]. apply elem_of_cons. by left.
  - rewrite IH. destruct (decide (k ∈ d.*1)) as [Hin|Hin].
    + rewrite decide_True; [done|]. apply elem_of_cons. by right.
    + rewrite decide_False; [done|].
      intros [?|?]%elem_of_cons; congruence.
Qed.

Lemma dict_set_NoDup (d : Dict) (k v : string) :
  NoDup d.*1 -> NoDup (dict_set d k v).*1.
Proof.
  intros Hd. rewrite dict_set_keys. case_decide; [done|].
  apply NoDup_app. split; [done|]. split; [|apply NoDup_singleton].
  intros x Hx ->%list_elem_of_singleton. done.
Qed.

Lemma dict_set_length (d : Dict) (k v : string) :
  (length d <= length (dict_set d k v) <= S (length d))%nat
  /\ (0 < length (dict_set d k v))%nat.
Proof.
  induction d as [|[k0 v0] d IH]; simpl; [lia|].
  destruct (String.eqb k0 k); simpl; lia.
Qed.

End PdfDict.

Section PdfLookup.
Import Pdf.
Context `{PyStr}.

(** [copy_chapter_text] returns the text of the first chapter, in
    insertion order, whose lower-cased title contains the lower-cased
    request, and raises [ValueError] exactly when no title does; a chapter
    whose exact title is requested is therefore hidden by any earlier
    chapter whose title merely contains it. *)
Theorem copy_chapter_text_first_match (chapter_title : string)
    (chapters : Dict) :
  (forall content : string,
      copy_chapter_text chapter_title chapters = Ok content <->
      exists (before : Dict) (title : string) (after : Dict),
        chapters = before ++ (title, content) :: after /\
        occurs_in (lower chapter_title) (lower title) /\
        Forall (fun kv => ~ occurs_in (lower chapter_title) (lower kv.1))
          before)
  /\ (forall e : exn,
        copy_chapter_text chapter_title chapters = Raise e <->
        e = ValueError /\
        Forall (fun kv => ~ occurs_in (lower chapter_title) (lower kv.1))
          chapters).
Proof.
  induction chapters as [|[title content] rest [IHok IHerr]].
  - split.
    + intros c. split; [done|].
      intros (before & t & after & Heq & _). by destruct before.
    + intros e. simpl. split; [by intros [= <-]|by intros [-> _]].
  - cbn [copy_chapter_text].
    destruct (contains (lower title) (lower chapter_title)) eqn:Hc.
    + apply contains_occurs in Hc. split.
      * intros c. split.
        -- intros [= <-]. by exists [], title, rest.
        -- intros (before & t & after & Heq & Hocc & Hnone).
           destruct before as [|kv before]; simpl in Heq.
           ++ by injection Heq as <- <- <-.
           ++ injection Heq as <- _. apply Forall_cons in Hnone as [Hno _].
              done.
      * intros e. split; [done|]. intros [_ [Hno _]%Forall_cons]. done.
    + assert (~ occurs_in (lower chapter_title) (lower title)) as Hno.
      { rewrite <- contains_occurs. by rewrite Hc. }
      split.
      * intros c. rewrite IHok. split.
        -- intros (before & t & after & -> & Hocc & Hnone).
           exists ((title, content) :: before), t, after.
           repeat split; try done. by constructor.
        -- intros (before & t & after & Heq & Hocc & Hnone).
           destruct before as [|kv before]; simpl in Heq.
           ++ injection Heq as <- <- <-. done.
           ++ injection Heq as <- ->.
              apply Forall_cons in Hnone as [_ Hnone].
              by exists before, t, after.
      * intros e. rewrite IHerr. split.
        -- intros [-> Hall]. split; [done|]. by constructor.
        -- intros [-> [_ Hall]%Forall_cons]. done.
Qed.

End PdfLookup.

Section PdfNames.
Import Pdf.

Lemma sub_plain (in_run : bool) (s : string) :
  is_plain_name (sub_non_alnum "_" in_run s) = true.
Proof.
  revert in_run. induction s as [|c s IH]; intros in_run; [done|].
  cbn [sub_non_alnum]. destruct (is_alnum c) eqn:Hc.
  - cbn [is_plain_name]. by rewrite Hc, IH.
  - destruct in_run; [apply IH|].
    change ("_" +:+ sub_non_alnum "_" true s)
      with (String "_" (sub_non_alnum "_" true s)).
    cbn [is_plain_name]. rewrite IH. by rewrite orb_true_r.
Qed.

Lemma sub_starts_alnum (s : string) :
  starts_alnum (sub_non_alnum "_" true s) = true.
Proof.
  induction s as [|c s IH]; [done|]. cbn [sub_non_alnum].
  by destruct (is_alnum c) eqn:Hc.
Qed.

Lemma sub_restart (s : string) :
  starts_alnum s = true ->
  sub_non_alnum "_" true s = sub_non_alnum "_" false s.
Proof. destruct s as [|c s]; [done|]. simpl. by intros ->. Qed.

Lemma sub_idempotent (in_run : bool) (s : string) :
  sub_non_alnum "_" false (sub_non_alnum "_" in_run s)
  = sub_non_alnum "_" in_run s.
Proof.
  revert in_run. induction s as [|c s IH]; intros in_run; [done|].
  cbn [sub_non_alnum]. destruct (is_alnum c) eqn:Hc.
  - cbn [sub_non_alnum]. by rewrite Hc, IH.
  - destruct in_run; [apply IH|].
    change ("_" +:+ sub_non_alnum "_" true s)
      with (String "_" (sub_non_alnum "_" true s)).
    cbn [sub_non_alnum].
    change (is_alnum "_") with false. cbn iota.
    rewrite sub_restart by apply sub_starts_alnum.
    by rewrite IH.
Qed.

Lemma plain_name_chars (name : string) (c : ascii) :
  is_plain_name name = true ->
  is_alnum c || Ascii.eqb c "_" = false ->
  ~ occurs_in (String c EmptyString) name.
Proof.
  intros Hplain Hc (pre & post & ->).
  induction pre as [|c' pre IH]; simpl in Hplain.
  - by rewrite Hc in Hplain.
  - apply andb_prop in Hplain as [_ Hplain]. by apply IH.
Qed.

(** The file name made from a title is harmless: it consists of ASCII
    letters, digits and underscores only, so it holds no slash and no dot
    and the chapter file lies directly inside the output directory; and a
    title that is not empty gives a name that is not empty. *)
Theorem safe_title_is_plain (output_dir title : string) :
  chapter_path output_dir title
  = output_dir +:+ "/" +:+ safe_title title +:+ ".txt"
  /\ is_plain_name (safe_title title) = true
  /\ ~ occurs_in "/" (safe_title title)
  /\ ~ occurs_in "." (safe_title title)
  /\ (title <> EmptyString -> safe_title title <> EmptyString).
Proof.
  split; [reflexivity|]. split; [apply sub_plain|].
  split; [|split].
  - apply plain_name_chars; [apply sub_plain|reflexivity].
  - apply plain_name_chars; [apply sub_plain|reflexivity].
  - destruct title as [|c s]; [done|]. intros _. unfold safe_title.
    cbn [sub_non_alnum]. by destruct (is_alnum c).
Qed.

(** Making a file name is idempotent: a name that came out of the
    substitution goes through it unchanged, because every run of other
    characters has become a single underscore. *)
Theorem safe_title_idempotent (title : string) :
  safe_title (safe_title title) = safe_title title.
Proof. apply sub_idempotent. Qed.

End PdfNames.

Section PdfSave.
Import Pdf.
Context `{Os}.
Variable (output_dir : string).

Lemma write_chapters_denied (items : Dict) (σ : World) :
  denied (write_chapters output_dir items σ).2 = denied σ
  /\ stdout (write_chapters output_dir items σ).2 = stdout σ.
Proof.
  revert σ. induction items as [|[title content] items IH]; intros σ; [done|].
  cbn [write_chapters]. unfold write_file. case_decide; [done|].
  destruct (IH {| files := <[chapter_path output_dir title := content]>
                             (files σ);
                  denied := denied σ; stdout := stdout σ |}) as [Hd Hs].
  by rewrite Hd, Hs.
Qed.

Lemma write_chapters_frame (items : Dict) (σ : World) (p : string) :
  Forall (fun kv => chapter_path output_dir kv.1 <> p) items ->
  files (write_chapters output_dir items σ).2 !! p = files σ !! p.
Proof.
  intros Hp. revert σ.
  induction Hp as [|[title content] items Hne _ IH]; intros σ; [done|].
  cbn [write_chapters]. unfold write_file. case_decide; [done|].
  rewrite IH. simpl. by rewrite lookup_insert_ne.
Qed.

Lemma write_chapters_result (items : Dict) (σ : World) :
  (write_chapters output_dir items σ).1 = Ok tt <->
  Forall (fun kv => chapter_path output_dir kv.1 ∉ denied σ) items.
Proof.
  revert σ. induction items as [|[title content] items IH]; intros σ.
  - split; [constructor|done].
  - cbn [write_chapters]. unfold write_file.
    destruct (decide (chapter_path output_dir title ∈ denied σ)) as [Hd|Hd].
    + split; [done|]. by intros [? _]%Forall_cons.
    + rewrite IH. simpl. split; [by constructor|by intros [_ ?]%Forall_cons].
Qed.

Lemma write_chapters_last (before after : Dict) (title content : string)
    (σ : World) :
  (write_chapters output_dir (before ++ (title, content) :: after) σ).1
  = Ok tt ->
  Forall (fun kv =>
      chapter_path output_dir kv.1 <> chapter_path output_dir title) after ->
  files (write_chapters output_dir (before ++ (title, content) :: after) σ).2
    !! chapter_path output_dir title
  = Some content.
Proof.
  intros Hok Hafter. revert σ Hok.
  induction before as [|[t c] before IH]; intros σ.
  - cbn [app write_chapters]. unfold write_file. case_decide; [done|].
    intros _. rewrite write_chapters_frame by done. simpl.
    by rewrite lookup_insert_eq.
  - cbn [app write_chapters]. unfold write_file. case_decide; [done|].
    apply IH.
Qed.

Lemma write_chapters_stops (before after : Dict) (title content : string)
    (σ : World) :
  Forall (fun kv => chapter_path output_dir kv.1 ∉ denied σ) before ->
  chapter_path output_dir title ∈ denied σ ->
  write_chapters output_dir (before ++ (title, content) :: after) σ
  = (Raise OSError, (write_chapters output_dir before σ).2).
Proof.
  intros Hbefore. revert σ Hbefore.
  induction before as [|[t c] before IH]; intros σ Hbefore Hden.
  - cbn [app write_chapters]. unfold write_file. by rewrite decide_True.
  - apply Forall_cons in Hbefore as [Ht Hbefore].
    cbn [app write_chapters]. unfold write_file. rewrite decide_False by done.
    by apply IH.
Qed.

(** Saving changes chapter files only: a path that is not the file of one
    of the chapters holds after the call what it held before, whether the
    call succeeded or not, and nothing is printed. *)
Theorem saved_files_confined (chapters : Dict) (σ : World) (p : string) :
  Forall (fun kv => chapter_path output_dir kv.1 <> p) chapters ->
  files (save_chapters_to_files chapters output_dir σ).2 !! p = files σ !! p
  /\ stdout (save_chapters_to_files chapters output_dir σ).2 = stdout σ.
Proof.
  intros Hp. unfold save_chapters_to_files.
  destruct (makedirs output_dir σ); [|done].
  split; [by apply write_chapters_frame|apply write_chapters_denied].
Qed.

(** Titles that differ only in punctuation or spacing share a file, and
    the last one wins: after a successful call the file of a chapter holds
    the text of the last chapter that is mapped to the same path. *)
Theorem saved_file_holds_last (before after : Dict)
    (title content : string) (σ : World) :
  (save_chapters_to_files (before ++ (title, content) :: after)
     output_dir σ).1 = Ok tt ->
  Forall (fun kv =>
      chapter_path output_dir kv.1 <> chapter_path output_dir title) after ->
  files (save_chapters_to_files (before ++ (title, content) :: after)
           output_dir σ).2 !! chapter_path output_dir title
  = Some content.
Proof.
  unfold save_chapters_to_files.
  destruct (makedirs output_dir σ); [|done].
  apply write_chapters_last.
Qed.

(** Saving is not all-or-nothing: when the directory can be made and the
    first chapter file that cannot be opened is reached, the call raises
    [OSError], the chapters before it have been written and none after
    it. *)
Theorem save_stops_at_first_failure (before after : Dict)
    (title content : string) (σ : World) :
  makedirs output_dir σ = Ok tt ->
  Forall (fun kv => chapter_path output_dir kv.1 ∉ denied σ) before ->
  chapter_path output_dir title ∈ denied σ ->
  save_chapters_to_files (before ++ (title, content) :: after) output_dir σ
  = (Raise OSError, (write_chapters output_dir before σ).2)
  /\ (write_chapters output_dir before σ).1 = Ok tt.
Proof.
  intros Hmk Hbefore Hden. unfold save_chapters_to_files. rewrite Hmk.
  split; [by apply write_chapters_stops|by apply write_chapters_result].
Qed.

End PdfSave.

Section PdfSplit.
Import Pdf.
Context `{PyStr} `{Re}.

Lemma add_chapters_heading (i : nat) (chapters : list string) (d : Dict) :
  add_chapters i chapters d
  = foldl (fun d ch => dict_set d (heading ch) (strip ch)) d chapters.
Proof.
  revert i d. induction chapters as [|ch chapters IH]; intros i d; [done|].
  cbn [add_chapters foldl]. rewrite IH. do 2 f_equal.
  unfold heading, split.
  by destruct (split_go_cons newline 0 (strip ch)) as (line & rest & ->).
Qed.

Lemma foldl_dict_set_get (f g : string -> string) (l : list string)
    (d : Dict) (k : string) :
  Forall (fun x => f x <> k) l ->
  dict_get (foldl (fun d x => dict_set d (f x) (g x)) d l) k = dict_get d k.
Proof.
  intros Hl. revert d. induction Hl as [|x l Hx _ IH]; intros d; [done|].
  cbn [foldl]. rewrite IH, dict_get_set.
  by destruct (String.eqb_spec (f x) k).
Qed.

Lemma foldl_dict_set_NoDup (f g : string -> string) (l : list string)
    (d : Dict) :
  NoDup d.*1 -> NoDup (foldl (fun d x => dict_set d (f x) (g x)) d l).*1.
Proof.
  revert d. induction l as [|x l IH]; intros d Hd; [done|].
  cbn [foldl]. apply IH. by apply dict_set_NoDup.
Qed.

Lemma foldl_dict_set_length (f g : string -> string) (l : list string)
    (d : Dict) :
  (length d <= length (foldl (fun d x => dict_set d (f x) (g x)) d l)
   <= length d + length l)%nat.
Proof.
  revert d. induction l as [|x l IH]; intros d; cbn [foldl length]; [lia|].
  specialize (IH (dict_set d (f x) (g x))).
  pose proof (dict_set_length d (f x) (g x)). lia.
Qed.

Lemma chunk_key_inj (i j : nat) :
  "Chunk_" +:+ pretty i = "Chunk_" +:+ pretty j -> i = j.
Proof.
  intros Heq. simpl in Heq. injection Heq as Heq. by apply (inj pretty).
Qed.

Lemma add_chunks_fresh (i : nat) (parts : list string) (d : Dict) :
  (forall j : nat, (i <= j)%nat -> "Chunk_" +:+ pretty j ∉ d.*1) ->
  add_chunks i parts d
  = d ++ imap (fun j part => ("Chunk_" +:+ pretty (i + j)%nat, part)) parts.
Proof.
  revert i d. induction parts as [|part parts IH]; intros i d Hfresh.
  - simpl. by rewrite app_nil_r.
  - cbn [add_chunks]. rewrite dict_set_fresh by (apply Hfresh; lia).
    rewrite IH.
    + rewrite <- app_assoc. f_equal. rewrite imap_cons, Nat.add_0_r.
      cbn [app]. f_equal. apply imap_ext. intros j x _. simpl.
      by rewrite Nat.add_succ_r.
    + intros j Hj. rewrite fmap_app. csimpl.
      intros [Hin|Hin%list_elem_of_singleton]%elem_of_app.
      * by apply (Hfresh j); [lia|].
      * apply chunk_key_inj in Hin. lia.
Qed.

Lemma imap_values {K V} (key : nat -> K) (l : list V) :
  (imap (fun j v => (key j, v)) l).*2 = l.
Proof.
  revert key. induction l as [|v l IH]; intros key; [done|].
  rewrite imap_cons. csimpl. f_equal. apply (IH (key ∘ S)).
Qed.

(** Without any chapter heading nothing of the text is lost: the parts
    between blank lines are stored in order under the keys [Chunk_1],
    [Chunk_2], ... and joining the stored texts with blank lines gives the
    input back. *)
Theorem fallback_chunks_round_trip (text : string) :
  findall_chapters text = [] ->
  split_into_chapters text
  = imap (fun j part => ("Chunk_" +:+ pretty (S j), part))
      (split (newline +:+ newline) text)
  /\ join_with (newline +:+ newline) (split_into_chapters text).*2 = text
  /\ length (split_into_chapters text)
     = length (split (newline +:+ newline) text).
Proof.
  intros Hnone. unfold split_into_chapters. rewrite Hnone. cbn [add_chapters].
  rewrite add_chunks_fresh by (intros j _; apply not_elem_of_nil).
  cbn [app].
  assert ((imap (fun j part => ("Chunk_" +:+ pretty (1 + j)%nat, part))
             (split (newline +:+ newline) text)).*2
          = split (newline +:+ newline) text) as Hvalues.
  { apply imap_values. }
  split; [done|]. split.
  - change (fun j part => ("Chunk_" +:+ pretty (S j), part))
      with (fun j part => ("Chunk_" +:+ pretty (1 + j)%nat, part)) in *.
    rewrite Hvalues. unfold split.
    rewrite join_split_go by done. reflexivity.
  - by rewrite length_imap.
Qed.

(** The dictionary [split_into_chapters] returns is never empty and, when
    headings were found, holds at most one entry per match: a match is
    stored under its stripped first line, and of several matches with the
    same first line only the last one's text is kept. *)
Theorem chapters_keyed_by_heading (text : string) :
  split_into_chapters text <> []
  /\ NoDup (split_into_chapters text).*1
  /\ (findall_chapters text <> [] ->
      (length (split_into_chapters text)
       <= length (findall_chapters text))%nat)
  /\ (forall (before after : list string) (chapter : string),
        findall_chapters text = before ++ chapter :: after ->
        Forall (fun ch => heading ch <> heading chapter) after ->
        dict_get (split_into_chapters text) (heading chapter)
        = Some (strip chapter)).
Proof.
  unfold split_into_chapters. rewrite add_chapters_heading.
  destruct (findall_chapters text) as [|ch chs] eqn:Hfind.
  - cbn [foldl].
    rewrite add_chunks_fresh by (intros j _; apply not_elem_of_nil).
    cbn [app]. split; [|split; [|split]].
    + unfold split.
      destruct (split_go_cons (newline +:+ newline) 0 text)
        as (piece & rest & ->). done.
    + rewrite fmap_imap.
      apply NoDup_alt. intros i j k.
      rewrite !list_lookup_imap.
      destruct (split _ text !! i); [|done].
      destruct (split _ text !! j); [|done].
      simpl. intros Hi Hj.
      assert (S i = S j) as Heq by (apply chunk_key_inj; congruence). lia.
    + done.
    + intros before after chapter Heq. by destruct before.
  - set (d := foldl _ [] (ch :: chs)).
    assert (d <> []) as Hd.
    { pose proof (foldl_dict_set_length heading strip chs
                    (dict_set [] (heading ch) (strip ch))) as Hlen.
      subst d. cbn [foldl]. intros Heq. rewrite Heq in Hlen.
      simpl in Hlen. lia. }
    destruct d as [|kv d'] eqn:Hdd; [done|]. rewrite <- Hdd.
    split; [by rewrite Hdd|]. split; [|split].
    + subst d. by apply foldl_dict_set_NoDup, NoDup_nil.
    + intros _. subst d.
      pose proof (foldl_dict_set_length heading strip (ch :: chs) []) as Hlen.
      simpl in *. lia.
    + intros before after chapter Heq Hafter. subst d.
      rewrite Heq, foldl_app. cbn [foldl].
      rewrite foldl_dict_set_get by done.
      rewrite dict_get_set. by rewrite String.eqb_refl.
Qed.

End PdfSplit.

Section PdfEdges.
Import Pdf.
Context `{PyStr} `{Os}.

(** Saving succeeds exactly when the directory can be made and none of
    the chapter files is at a path that cannot be opened for writing. *)
Theorem save_succeeds_iff (chapters : Dict) (output_dir : string)
    (σ : World) :
  (save_chapters_to_files chapters output_dir σ).1 = Ok tt <->
  makedirs output_dir σ = Ok tt /\
  Forall (fun kv => chapter_path output_dir kv.1 ∉ denied σ) chapters.
Proof.
  unfold save_chapters_to_files.
  destruct (makedirs output_dir σ) as [[]|e].
  - rewrite write_chapters_result. tauto.
  - split; [done|]. by intros [? _].
Qed.

(** An empty request matches every title: provided lower-casing the empty
    string gives the empty string, [copy_chapter_text] with an empty title
    returns the text of the first chapter, whatever it is called. *)
Theorem empty_request_returns_first (title content : string) (rest : Dict) :
  lower EmptyString = EmptyString ->
  copy_chapter_text EmptyString ((title, content) :: rest) = Ok content.
Proof.
  intros Hlower. cbn [copy_chapter_text]. rewrite Hlower.
  assert (contains (lower title) EmptyString = true) as ->; [|done].
  apply contains_occurs. by exists EmptyString, (lower title).
Qed.

End PdfEdges.

(* ===================================================================== *)
(** * The theorems on the sample inputs *)

#[local] Existing Instance Samples.cv.
#[local] Existing Instance Reference.svgwrite.

Ltac wf_sample :=
  repeat first
    [ split
    | apply Forall_cons_2
    | apply Forall_nil_2
    | reflexivity
    | (unfold is_uint8; lia) ].

(** The loader on the two sample images with alpha: the transparent pixel
    turns white, the half-transparent one keeps its colour, and the fully
    transparent image loads as the white image. *)
Lemma alpha_zero_becomes_white_witness :
  (exists a' : list (list (list Z)),
      handle_alpha Samples.rgba_image = Ok (Array3 1 2 3 a') /\
      at2 a' 0 0 = Some [255; 255; 255] /\
      at2 a' 0 1 = Some [40; 50; 60])
  /\ handle_alpha Samples.clear_image = handle_alpha (white_image 1 2).
Proof.
  split.
  - destruct (alpha_zero_becomes_white 1 2
                [ [ [10; 20; 30; 0]; [40; 50; 60; 128] ] ])
      as (a' & Ha & _ & Hpx & _); [wf_sample|].
    exists a'. split; [exact Ha|]. split.
    + exact (Hpx 0%nat 0%nat 10 20 30 0 eq_refl).
    + exact (Hpx 0%nat 1%nat 40 50 60 128 eq_refl).
  - destruct (alpha_zero_becomes_white 1 2
                [ [ [10; 20; 30; 0]; [40; 50; 60; 0] ] ])
      as (a' & _ & _ & _ & Hclear); [wf_sample|].
    apply Hclear. intros y x px Hpx.
    destruct y as [|y]; [|destruct y; discriminate Hpx].
    destruct x as [|[|x]]; [| |destruct x; discriminate Hpx];
      injection Hpx as <-; reflexivity.
Defined.

(** The area filter at the default threshold: the rectangle of area 249
    leaves the loop's result unchanged, the one of area 250 yields a path. *)
Lemma area_filter_boundary_witness :
  (contourArea Samples.below_default == inject_Z (default_min_area - 1))%Q
  /\ (contourArea Samples.at_default == inject_Z default_min_area)%Q
  /\ trace_contours Samples.block_image 4 4 default_detail default_min_area
       ([] ++ Samples.below_default :: [Samples.at_default]) Samples.canvas
     = trace_contours Samples.block_image 4 4 default_detail default_min_area
         ([] ++ [Samples.at_default]) Samples.canvas
  /\ exists (ps1 : list Element) (p : Element) (ps2 : list Element),
       region Samples.block_image 4 4 default_detail Samples.at_default = Ok p
       /\ ps1 ++ p :: ps2
          = [path "M 0,0 L 0,25 L 10,25 L 10,0 Z" "#ffffff" "none"].
Proof.
  destruct (area_filter_boundary Samples.block_image 4 4 default_detail
              default_min_area [Samples.below_default; Samples.at_default]
              Samples.canvas)
    as (_ & _ & Hbelow & Hequal & _).
  split; [reflexivity|]. split; [reflexivity|]. split.
  - apply Hbelow. reflexivity.
  - destruct (Hequal Samples.at_default [Samples.below_default] []
                (extend Samples.canvas
                   [path "M 0,0 L 0,25 L 10,25 L 10,0 Z" "#ffffff" "none"]))
      as (ps1 & p & ps2 & _ & Hp & _ & Hel);
      [reflexivity|vm_compute; reflexivity|].
    exists ps1, p, ps2. split; [exact Hp|].
    simpl in Hel. injection Hel as Hel. by symmetry.
Defined.


(** Centroid sampling on the 2x2 square, first-vertex fallback on the
    sliver, the clamped read inside the 4x4 image and the region it gives
    at the tolerance 0.012; at a negative [detail] the simplification
    refuses the tolerance and there is no region. *)
Lemma fill_colour_sampling_witness :
  sample_point Samples.square
    (approxPolyDP Samples.square ((3 # 2000) * arcLength Samples.square true)%Q
       true)
  = Ok (1, 1)
  /\ sample_point Samples.sliver
       (approxPolyDP Samples.sliver
          ((3 # 2000) * arcLength Samples.sliver true)%Q true)
     = Ok (1, 1)
  /\ (exists (y x : nat) (b g r : Z),
        (y < 4)%nat /\ (x < 4)%nat /\
        sample_pixel Samples.block_image 4 4 1 1 = Ok [b; g; r] /\
        region Samples.block_image 4 4 (3 # 2000) Samples.square
        = Ok (path
                (svg_path_d
                   (approxPolyDP Samples.square
                      ((3 # 2000) * arcLength Samples.square true)%Q true))
                ("#" +:+ format_02x r +:+ format_02x g +:+ format_02x b)
                "none"))
  /\ (exists (cx cy : Z) (y x : nat) (b g r : Z),
        sample_point Samples.square
          (approxPolyDP Samples.square
             ((3 # 2000) * arcLength Samples.square true)%Q true)
        = Ok (cx, cy) /\
        (y < 4)%nat /\ (x < 4)%nat /\
        at2 [ [Samples.white; Samples.white; Samples.white; Samples.white];
              [Samples.white; Samples.black; Samples.black; Samples.white];
              [Samples.white; Samples.black; Samples.black; Samples.white];
              [Samples.white; Samples.white; Samples.white; Samples.white] ]
          y x = Some [b; g; r] /\
        path "M 0,0 L 0,2 L 2,2 L 2,0 Z" "#000000" "none"
        = path
            (svg_path_d
               (approxPolyDP Samples.square
                  ((3 # 2000) * arcLength Samples.square true)%Q true))
            ("#" +:+ format_02x r +:+ format_02x g +:+ format_02x b) "none")
  /\ region Samples.block_image 4 4 (-1 # 1000) Samples.square
     = Raise cv2_error.
Proof.
  pose proof (fill_colour_sampling 4 4
    [ [Samples.white; Samples.white; Samples.white; Samples.white];
      [Samples.white; Samples.black; Samples.black; Samples.white];
      [Samples.white; Samples.black; Samples.black; Samples.white];
      [Samples.white; Samples.white; Samples.white; Samples.white] ])
    as Hthm.
  split; [|split; [|split; [|split]]].
  - destruct (Hthm (3 # 2000) Samples.square) as (Hcentroid & _);
      [unfold Samples.white, Samples.black; wf_sample|lia|lia|].
    apply Hcentroid. vm_compute. discriminate.
  - destruct (Hthm (3 # 2000) Samples.sliver) as (_ & Hfirst & _);
      [unfold Samples.white, Samples.black; wf_sample|lia|lia|].
    apply (Hfirst eq_refl (1, 1) [(2, 1)]). reflexivity.
  - destruct (Hthm (3 # 2000) Samples.square) as (_ & _ & Hread & _);
      [unfold Samples.white, Samples.black; wf_sample|lia|lia|].
    destruct (Hread 1 1)
      as (y & x & b & g & r & _ & _ & Hy & Hx & _ & Hpx & Hregion);
      [vm_compute; reflexivity|].
    exists y, x, b, g, r.
    split; [exact Hy|]. split; [exact Hx|]. split; [exact Hpx|].
    apply Hregion; vm_compute; [discriminate|reflexivity].
  - destruct (Hthm (3 # 2000) Samples.square) as (_ & _ & _ & Hregion & _);
      [unfold Samples.white, Samples.black; wf_sample|lia|lia|].
    destruct (Hregion (path "M 0,0 L 0,2 L 2,2 L 2,0 Z" "#000000" "none"))
      as (_ & _ & cx & cy & y & x & b & g & r
          & Hpt & _ & _ & Hy & Hx & Hat & He);
      [vm_compute; reflexivity|].
    exists cx, cy, y, x, b, g, r.
    split; [exact Hpt|]. split; [exact Hy|]. split; [exact Hx|].
    split; [exact Hat|exact He].
  - destruct (Hthm (-1 # 1000) Samples.square) as (_ & _ & _ & _ & Hbad);
      [unfold Samples.white, Samples.black; wf_sample|lia|lia|].
    apply Hbad. intros [Hlo _]. vm_compute in Hlo. by apply Hlo.
Defined.

(** The document built from the block image: a white background rectangle
    followed by one region. *)
Lemma document_layout_witness :
  exists (dwg : Drawing) (bg : string) (ps : list Element),
    build_drawing Samples.block_image "out.svg" 1 (3 # 2000) 4 = Ok dwg /\
    elements dwg = rect (0, 0) (4, 4) bg :: ps /\
    is_rrggbb bg 255 255 255 = true /\
    length ps = 1%nat.
Proof.
  destruct (build_drawing Samples.block_image "out.svg" 1 (3 # 2000) 4)
    as [dwg|e] eqn:Hbuild; [|vm_compute in Hbuild; discriminate Hbuild].
  destruct (document_layout Samples.block_image "out.svg" 1 (3 # 2000) 4 dwg)
    as (h & w & img' & b & g & r & rest & bg & cs & ps
        & Hshape & Halpha & Hpx & Hhex & Hel & Hcs & Hps);
    [unfold Samples.block_image, Samples.white, Samples.black; wf_sample
    |exact Hbuild|].
  exists dwg, bg, ps. split; [reflexivity|].
  injection Hshape as <- <-. split; [exact Hel|].
  vm_compute in Halpha. injection Halpha as <-.
  vm_compute in Hpx. injection Hpx as <- <- <- <-.
  split; [exact Hhex|].
  apply Forall2_length in Hps. rewrite <- Hps.
  vm_compute in Hcs. injection Hcs as <-. reflexivity.
Defined.

(** No qualifying contour: the blank image has no contour at all, the block
    image only one below the default area; both runs write the
    background rectangle alone. *)
Lemma empty_result_still_written_witness :
  (exists bg : string,
      precise_image_to_svg "blank.png" "out.svg" default_blur_strength
        default_detail default_min_area Samples.world
      = (Ok tt, after_save (document "out.svg" 2 2 bg []) Samples.world)
      /\ files (after_save (document "out.svg" 2 2 bg []) Samples.world)
           !! "out.svg"
         = Some (tostring (document "out.svg" 2 2 bg [])))
  /\ (exists bg : string,
        precise_image_to_svg "block.png" "out.svg" default_blur_strength
          default_detail default_min_area Samples.world
        = (Ok tt, after_save (document "out.svg" 4 4 bg []) Samples.world)).
Proof.
  split.
  - destruct (empty_result_still_written "blank.png" "out.svg"
                default_blur_strength default_detail default_min_area
                Samples.world "blank" 2 2 3
                [ [Samples.white; Samples.white];
                  [Samples.white; Samples.white] ]
                Samples.blank_image [])
      as (bg & _ & _ & _ & Hrun & Hfile).
    + reflexivity.
    + reflexivity.
    + unfold Samples.white. wf_sample.
    + lia.
    + lia.
    + lia.
    + apply not_elem_of_empty.
    + reflexivity.
    + vm_compute. reflexivity.
    + constructor.
    + exists bg. split; [exact Hrun|exact Hfile].
  - destruct (empty_result_still_written "block.png" "out.svg"
                default_blur_strength default_detail default_min_area
                Samples.world "block" 4 4 3
                [ [Samples.white; Samples.white; Samples.white; Samples.white];
                  [Samples.white; Samples.black; Samples.black; Samples.white];
                  [Samples.white; Samples.black; Samples.black; Samples.white];
                  [Samples.white; Samples.white; Samples.white; Samples.white] ]
                Samples.block_image
                [ [ (0, 0); (0, 1); (0, 2); (0, 3); (1, 3); (2, 3); (3, 3);
                    (3, 2); (3, 1); (3, 0); (2, 0); (1, 0) ] ])
      as (bg & _ & _ & _ & Hrun & _).
    + reflexivity.
    + reflexivity.
    + unfold Samples.white, Samples.black. wf_sample.
    + lia.
    + lia.
    + lia.
    + apply not_elem_of_empty.
    + reflexivity.
    + vm_compute. reflexivity.
    + repeat constructor.
    + exists bg. exact Hrun.
Defined.

(** Two runs on the block image agree, from different worlds and one after
    the other. *)
Lemma conversion_deterministic_witness :
  (precise_image_to_svg "block.png" "out.svg" 1 (3 # 2000) 4 Samples.world).1
  = (precise_image_to_svg "block.png" "out.svg" 1 (3 # 2000) 4
       (print "earlier output" Samples.world)).1
  /\ (precise_image_to_svg "block.png" "out.svg" 1 (3 # 2000) 4
        (precise_image_to_svg "block.png" "out.svg" 1 (3 # 2000) 4
           Samples.world).2).1
     = (precise_image_to_svg "block.png" "out.svg" 1 (3 # 2000) 4
          Samples.world).1.
Proof.
  destruct (conversion_deterministic "block.png" "out.svg" 1 (3 # 2000) 4
              Samples.world (print "earlier output" Samples.world))
    as [Hsame Htwice].
  split.
  - apply Hsame; reflexivity.
  - apply Htwice. discriminate.
Defined.

(** The single-channel sample ends in [IndexError] with the world untouched;
    the run on the block image completes and that image has three
    channels. *)
Lemma single_channel_index_error_witness :
  precise_image_to_svg "gray.png" "out.svg" 1 (3 # 2000) 250 Samples.world
  = (Raise IndexError, Samples.world)
  /\ exists (h w c : nat) (a : list (list (list Z))),
       Samples.block_image = Array3 h w c a /\ (3 <= c)%nat.
Proof.
  destruct (single_channel_index_error "gray.png" "out.svg" 1 (3 # 2000) 250
              Samples.world) as [Hgray _].
  destruct (single_channel_index_error "block.png" "out.svg" 1 (3 # 2000) 4
              Samples.world) as [_ Hdone].
  split.
  - apply (Hgray "gray" 1%nat 2%nat [[100; 118]]); reflexivity.
  - apply (Hdone Samples.block_image
             (precise_image_to_svg "block.png" "out.svg" 1 (3 # 2000) 4
                Samples.world).2).
    + reflexivity.
    + unfold Samples.block_image, Samples.white, Samples.black. wf_sample.
    + vm_compute. reflexivity.
Defined.

(** The sample with a transparent, dark top-left pixel gets a white
    background. *)
Lemma transparent_corner_background_witness :
  (exists img' : ndarray,
      handle_alpha Samples.rgba_image = Ok img' /\
      background_hex img' = Ok "#ffffff")
  /\ exists dwg : Drawing,
       build_drawing Samples.rgba_image "out.svg" 1 (3 # 2000) 250 = Ok dwg /\
       head (elements dwg) = Some (rect (0, 0) (2, 1) "#ffffff").
Proof.
  destruct (transparent_corner_background "rgba.png" "out.svg" 1 (3 # 2000) 250
              1 2 [ [ [10; 20; 30; 0]; [40; 50; 60; 128] ] ] 10 20 30)
    as (Hbg & Hhead & _); [wf_sample|reflexivity|].
  split; [exact Hbg|].
  destruct (build_drawing Samples.rgba_image "out.svg" 1 (3 # 2000) 250)
    as [dwg|e] eqn:Hbuild; [|vm_compute in Hbuild; discriminate Hbuild].
  exists dwg. split; [reflexivity|]. apply Hhead. exact Hbuild.
Defined.


(** ** Further properties on the sample inputs *)


(** Converting [block.png] onto itself destroys the image. *)
Lemma output_over_input_witness :
  exists dwg : Drawing,
    files (precise_image_to_svg "block.png" "block.png"
             default_blur_strength default_detail 4 Samples.world).2
      !! "block.png"
    = Some (tostring dwg).
Proof.
  destruct (output_over_input "block.png" "block.png" default_blur_strength
              default_detail 4 Samples.world
              (precise_image_to_svg "block.png" "block.png"
                 default_blur_strength default_detail 4 Samples.world).2)
    as (dwg & Hfile & _); [reflexivity|vm_compute; reflexivity|].
  by exists dwg.
Defined.

(** From threshold 4 to the default 250 the region of the 249-pixel
    rectangle disappears. *)
Lemma raising_min_area_only_removes_witness :
  exists (dwg2 : Drawing) (ps1 ps2 : list Element),
    trace_contours Samples.block_image 4 4 default_detail default_min_area
      [Samples.below_default; Samples.at_default] Samples.canvas = Ok dwg2
    /\ elements dwg2 = elements Samples.canvas ++ ps2
    /\ sublist ps2 ps1.
Proof.
  destruct (trace_contours Samples.block_image 4 4 default_detail 4
              [Samples.below_default; Samples.at_default] Samples.canvas)
    as [dwg1|e] eqn:Hrun; [|vm_compute in Hrun; discriminate Hrun].
  destruct (raising_min_area_only_removes Samples.block_image 4 4
              default_detail 4 default_min_area
              [Samples.below_default; Samples.at_default]
              Samples.canvas dwg1)
    as (dwg2 & ps1 & ps2 & Hrun2 & _ & Hel2 & Hsub);
    [unfold default_min_area; lia|exact Hrun|].
  exists dwg2, ps1, ps2.
  split; [exact Hrun2|]. split; [exact Hel2|exact Hsub].
Defined.

(** With [min_area = 0] the sliver of area 0 is drawn as well. *)
Lemma nonpositive_min_area_keeps_all_witness :
  exists dwg' : Drawing,
    trace_contours Samples.block_image 4 4 default_detail 0
      [Samples.sliver; Samples.square] Samples.canvas = Ok dwg'
    /\ length (elements dwg') = 3%nat.
Proof.
  destruct (nonpositive_min_area_keeps_all Samples.block_image 4 4
              default_detail 0 [Samples.sliver; Samples.square]
              Samples.canvas) as [_ Hcount].
  - lia.
  - repeat constructor; discriminate.
  - destruct (trace_contours Samples.block_image 4 4 default_detail 0
                [Samples.sliver; Samples.square] Samples.canvas)
      as [dwg'|e] eqn:Hrun; [|vm_compute in Hrun; discriminate Hrun].
    exists dwg'. split; [reflexivity|]. by apply Hcount.
Defined.

Lemma hex_colour_injective_witness :
  "#" +:+ format_02x 18 +:+ format_02x 52 +:+ format_02x 86 = "#123456"
  /\ (18 = 18 /\ 52 = 52 /\ 86 = 86).
Proof.
  split; [reflexivity|].
  apply (hex_colour_injective 18 52 86 18 52 86);
    try (unfold is_uint8; lia). reflexivity.
Defined.

(** The loaded RGBA sample goes through the alpha step unchanged. *)
Lemma loader_idempotent_witness :
  handle_alpha (Array3 1 2 3 [ [ [255; 255; 255]; [40; 50; 60] ] ])
  = Ok (Array3 1 2 3 [ [ [255; 255; 255]; [40; 50; 60] ] ]).
Proof.
  destruct (loader_idempotent Samples.rgba_image
              (Array3 1 2 3 [ [ [255; 255; 255]; [40; 50; 60] ] ]))
    as (Hagain & _ & _); [reflexivity|exact Hagain].
Defined.

#[local] Existing Instance Pdf.ascii_str.
#[local] Existing Instance Pdf.ascii_re.
#[local] Existing Instance Pdf.plain_os.

(** A request in lower case finds the surviving first chapter of the
    sample book; a request that occurs in no title raises. *)
Lemma copy_chapter_text_first_match_witness :
  (exists (before : Pdf.Dict) (title : string) (after : Pdf.Dict),
      Pdf.split_into_chapters PdfSamples.book
      = before ++ (title, "CHAPTER 1 Start" +:+ PdfSamples.nl
                          +:+ "revised text") :: after)
  /\ Forall (fun kv : string * string =>
        ~ Pdf.occurs_in (Pdf.lower "appendix") (Pdf.lower kv.1))
       (Pdf.split_into_chapters PdfSamples.book).
Proof.
  destruct (copy_chapter_text_first_match "chapter 1"
              (Pdf.split_into_chapters PdfSamples.book)) as [Hok _].
  destruct (copy_chapter_text_first_match "appendix"
              (Pdf.split_into_chapters PdfSamples.book)) as [_ Herr].
  split.
  - destruct (proj1 (Hok ("CHAPTER 1 Start" +:+ PdfSamples.nl
                          +:+ "revised text")))
      as (before & title & after & Heq & _); [vm_compute; reflexivity|].
    by exists before, title, after.
  - apply (Herr ValueError). vm_compute. reflexivity.
Defined.

Lemma empty_request_returns_first_witness :
  Pdf.copy_chapter_text EmptyString PdfSamples.clashing = Ok "one".
Proof.
  apply (empty_request_returns_first "CHAPTER 1: Start" "one"
           [ ("Chapter 2", "two"); ("CHAPTER 1 - Start", "three") ]).
  reflexivity.
Defined.

Lemma safe_title_is_plain_witness :
  Pdf.chapter_path "out" "../etc/passwd" = "out/_etc_passwd.txt"
  /\ Pdf.safe_title "../etc/passwd" <> EmptyString.
Proof.
  destruct (safe_title_is_plain "out" "../etc/passwd")
    as (Hpath & _ & _ & _ & Hne).
  split; [exact Hpath|]. apply Hne. discriminate.
Defined.

(** Saving the clashing titles leaves [notes.txt] alone. *)
Lemma saved_files_confined_witness :
  files (Pdf.save_chapters_to_files PdfSamples.clashing "out"
           PdfSamples.disk).2 !! "notes.txt"
  = Some "keep".
Proof.
  destruct (saved_files_confined "out" PdfSamples.clashing PdfSamples.disk
              "notes.txt") as [Hfile _].
  - repeat constructor; discriminate.
  - rewrite Hfile. reflexivity.
Defined.

(** The two titles that differ in punctuation share a file; it holds the
    text of the later one. *)
Lemma saved_file_holds_last_witness :
  Pdf.chapter_path "out" "CHAPTER 1: Start"
  = Pdf.chapter_path "out" "CHAPTER 1 - Start"
  /\ files (Pdf.save_chapters_to_files PdfSamples.clashing "out"
              PdfSamples.disk).2 !! "out/CHAPTER_1_Start.txt"
     = Some "three".
Proof.
  split; [reflexivity|].
  apply (saved_file_holds_last "out"
           [ ("CHAPTER 1: Start", "one"); ("Chapter 2", "two") ] []
           "CHAPTER 1 - Start" "three" PdfSamples.disk).
  - vm_compute. reflexivity.
  - constructor.
Defined.

(** In the locked directory the first chapter is written, the second
    cannot be, the third is never tried. *)
Lemma save_stops_at_first_failure_witness :
  Pdf.save_chapters_to_files PdfSamples.clashing "locked" PdfSamples.disk
  = (Raise OSError,
     (Pdf.write_chapters "locked" [ ("CHAPTER 1: Start", "one") ]
        PdfSamples.disk).2).
Proof.
  destruct (save_stops_at_first_failure "locked"
              [ ("CHAPTER 1: Start", "one") ]
              [ ("CHAPTER 1 - Start", "three") ]
              "Chapter 2" "two" PdfSamples.disk) as [Hrun _].
  - reflexivity.
  - repeat constructor. vm_compute. discriminate.
  - vm_compute. reflexivity.
  - exact Hrun.
Defined.

Lemma save_succeeds_iff_witness :
  (Pdf.save_chapters_to_files PdfSamples.clashing "out" PdfSamples.disk).1
  = Ok tt.
Proof.
  apply (save_succeeds_iff PdfSamples.clashing "out" PdfSamples.disk).
  split; [reflexivity|].
  repeat constructor; vm_compute; discriminate.
Defined.

(** The notes have no heading: three chunks, joined back to the notes. *)
Lemma fallback_chunks_round_trip_witness :
  Pdf.join_with (Pdf.newline +:+ Pdf.newline)
    (Pdf.split_into_chapters PdfSamples.notes).*2 = PdfSamples.notes
  /\ length (Pdf.split_into_chapters PdfSamples.notes) = 3%nat.
Proof.
  destruct (fallback_chunks_round_trip PdfSamples.notes)
    as (_ & Hjoin & Hlen); [reflexivity|].
  split; [exact Hjoin|]. rewrite Hlen. reflexivity.
Defined.

(** Of the two chapters of the book headed [CHAPTER 1 Start] the second
    survives. *)
Lemma chapters_keyed_by_heading_witness :
  Pdf.dict_get (Pdf.split_into_chapters PdfSamples.book) "CHAPTER 1 Start"
  = Some ("CHAPTER 1 Start" +:+ PdfSamples.nl +:+ "revised text")
  /\ (length (Pdf.split_into_chapters PdfSamples.book) <= 3)%nat.
Proof.
  destruct (chapters_keyed_by_heading PdfSamples.book)
    as (_ & _ & Hlen & Hlast).
  split.
  - apply (Hlast
             [ "CHAPTER 1 Start" +:+ PdfSamples.nl +:+ "first text";
               "CHAPTER 2: Next" +:+ PdfSamples.nl +:+ "second text" ]
             []
             ("CHAPTER 1 Start" +:+ PdfSamples.nl +:+ "revised text")).
    + vm_compute. reflexivity.
    + constructor.
  - apply Hlen. vm_compute. discriminate.
Defined.
